(** * libcompose command handlers (cli/app/app.go)

    A shallow embedding of the command handlers of [cli/app/app.go] and of
    the attached-mode coordination of [ProjectUp], together with the
    properties of the handlers that the specification states.

    Layout:
    - Go values and the standard-library functions the handlers call
      ([strings.SplitN], [strconv.Atoi], [fmt.Scanln], ...), written
      after the sources of the Go library;
    - the collaborators: [cli.Context] and the [project.APIProject]
      interface;
    - the handlers, written in a small monad over the observable world;
    - the goroutines of [ProjectUp] as a transition system;
    - the theorems. *)

From Stdlib Require Import ZArith Lia Ascii String List Bool.
From stdpp Require Import base gmap strings list fin_maps.

Local Open Scope Z_scope.

(** ** Go values *)

(** A Go [string] is a sequence of bytes. *)
Definition byte_val (c : ascii) : Z := Z.of_N (N_of_ascii c).

(** Go [error] values: [errors.New] and [*strconv.NumError]; [None] in an
    [option error] is the [nil] error. *)
Inductive error : Type :=
| errors_New (text : string)
| NumError (Func Num : string) (Err : error).

Definition ErrRange : error := errors_New "value out of range".
Definition ErrSyntax : error := errors_New "invalid syntax".
Definition io_EOF : error := errors_New "EOF".

Fixpoint error_eqb (e1 e2 : error) : bool :=
  match e1, e2 with
  | errors_New a, errors_New b => String.eqb a b
  | NumError f1 n1 x1, NumError f2 n2 x2 =>
      String.eqb f1 f2 && String.eqb n1 n2 && error_eqb x1 x2
  | _, _ => false
  end.

(** Wrap-around of 64-bit machine arithmetic. *)
Definition uint64 (z : Z) : Z := z mod 2 ^ 64.
Definition int64 (z : Z) : Z := (z + 2 ^ 63) mod 2 ^ 64 - 2 ^ 63.
Definition maxUint64 : Z := 2 ^ 64 - 1.

(** [strconv.IntSize]: the size in bits of [int] (64-bit targets). *)
Definition IntSize : Z := 64.

(** ** package strings *)

(** [strings.HasPrefix]. *)
Fixpoint strings_HasPrefix (s prefix : string) {struct prefix} : bool :=
  match prefix, s with
  | EmptyString, _ => true
  | String p prefix', String c s' => Ascii.eqb c p && strings_HasPrefix s' prefix'
  | String _ _, EmptyString => false
  end.

(** [strings.Index]: the index of the first instance of [substr] in [s];
    Go's [-1] is [None]. *)
Fixpoint strings_Index (s substr : string) : option nat :=
  if strings_HasPrefix s substr then Some O
  else match s with
       | EmptyString => None
       | String _ s' => option_map S (strings_Index s' substr)
       end.

(** [s[m:]] *)
Fixpoint string_drop (m : nat) (s : string) : string :=
  match m, s with
  | O, _ => s
  | S m', String _ s' => string_drop m' s'
  | S _, EmptyString => EmptyString
  end.

(** [s[:m]] *)
Fixpoint string_take (m : nat) (s : string) : string :=
  match m, s with
  | S m', String c s' => String c (string_take m' s')
  | _, _ => EmptyString
  end.

(** The loop of [strings.genSplit] for a non-empty separator: at most
    [k] further cuts, the last substring is the unsplit remainder. *)
Fixpoint genSplit (k : nat) (s sep : string) : list string :=
  match k with
  | O => [s]
  | S k' =>
      match strings_Index s sep with
      | None => [s]
      | Some m =>
          string_take m s :: genSplit k' (string_drop (m + String.length sep) s) sep
      end
  end.

(** [strings.SplitN(s, sep, n)] for a non-empty [sep] and [n >= 0]:
    [n = 0] gives no substring, [n > 0] at most [n] substrings. (An empty
    separator and a negative [n] are not used by this program.) *)
Definition strings_SplitN (s sep : string) (n : nat) : list string :=
  match n with
  | O => []
  | S k => genSplit k s sep
  end.

(** [strings.Join]. *)
Fixpoint strings_Join (a : list string) (sep : string) : string :=
  match a with
  | [] => EmptyString
  | [x] => x
  | x :: rest => x +:+ sep +:+ strings_Join rest sep
  end.

(** ** package strconv *)

(** The value of a digit byte in [ParseUint]: ['0'..'9'], ['a'..'z'],
    ['A'..'Z']; other bytes are a syntax error. *)
Definition digit_of (d : ascii) : option Z :=
  let b := byte_val d in
  if (48 <=? b) && (b <=? 57) then Some (b - 48)
  else if (97 <=? b) && (b <=? 122) then Some (b - 97 + 10)
  else if (65 <=? b) && (b <=? 90) then Some (b - 65 + 10)
  else None.

(** The digit loop of [strconv.ParseUint]; [n] is the [uint64]
    accumulator. The result is Go's [(n, err)] before [err] is wrapped in
    a [NumError]. *)
Fixpoint ParseUint_loop (base cutoff maxVal : Z) (s : string) (n : Z)
  : Z * option error :=
  match s with
  | EmptyString => (n, None)
  | String d s' =>
      match digit_of d with
      | None => (0, Some ErrSyntax)
      | Some v =>
          if v >=? base then (0, Some ErrSyntax)
          else if n >=? cutoff then (maxUint64, Some ErrRange)
          else
            let n' := uint64 (n * base) in
            let n1 := uint64 (n' + v) in
            if (n1 <? n') || (n1 >? maxVal) then (maxUint64, Some ErrRange)
            else ParseUint_loop base cutoff maxVal s' n1
      end
  end.

(** [strconv.ParseUint(s, base, bitSize)] for [2 <= base <= 36]. (Base 0,
    which reads the base from a prefix, is not used by this program.) *)
Definition ParseUint (s : string) (base bitSize : Z) : Z * option error :=
  let bitSize := if bitSize =? 0 then IntSize else bitSize in
  if (String.length s <? 1)%nat then (0, Some (NumError "ParseUint" s ErrSyntax))
  else
    let cutoff := maxUint64 / base + 1 in
    let maxVal := uint64 (uint64 (Z.shiftl 1 bitSize) - 1) in
    match ParseUint_loop base cutoff maxVal s 0 with
    | (n, None) => (n, None)
    | (n, Some e) => (n, Some (NumError "ParseUint" s e))
    end.

(** The cutoff of [ParseUint] in base 10: [maxUint64/10 + 1]. *)
Definition cutoff10 : Z := 1844674407370955162.

(** The [Err] field of a [*NumError]. *)
Definition NumError_Err (e : error) : error :=
  match e with
  | NumError _ _ x => x
  | errors_New _ => e
  end.

(** The second half of [strconv.ParseInt]: from the result [(un, err)]
    of [ParseUint] on the text after the sign, check the range and
    apply the sign. [s0] is the whole text. *)
Definition ParseInt_range (s0 : string) (neg : bool) (bitSize : Z)
    (r : Z * option error) : Z * option error :=
  let '(un, err) := r in
  let syntax_failure :=
    match err with
    | Some e => negb (error_eqb (NumError_Err e) ErrRange)
    | None => false
    end in
  if syntax_failure
  then (0, option_map (fun e => NumError "ParseInt" s0 (NumError_Err e)) err)
  else
    let cutoff := uint64 (Z.shiftl 1 (bitSize - 1)) in
    if negb neg && (un >=? cutoff)
    then (int64 (cutoff - 1), Some (NumError "ParseInt" s0 ErrRange))
    else if neg && (un >? cutoff)
    then (int64 (- int64 cutoff), Some (NumError "ParseInt" s0 ErrRange))
    else
      let n := int64 un in
      (if neg then int64 (- n) else n, None).

(** [strconv.ParseInt(s, base, bitSize)]. *)
Definition ParseInt (s : string) (base bitSize : Z) : Z * option error :=
  let bitSize := if bitSize =? 0 then IntSize else bitSize in
  match s with
  | EmptyString => (0, Some (NumError "ParseInt" s ErrSyntax))
  | String c0 rest =>
      (* pick off the leading sign *)
      let neg := Ascii.eqb c0 "-" in
      let body := if Ascii.eqb c0 "+" || Ascii.eqb c0 "-" then rest else s in
      (* convert unsigned and check the range *)
      ParseInt_range s neg bitSize (ParseUint body base bitSize)
  end.

(** [strconv.Atoi(s)] is [ParseInt(s, 10, 0)] converted to [int]. (Later
    releases of Go add a fast path with the same results and name
    [Atoi] in the [Func] field of the error.) *)
Definition strconv_Atoi (s : string) : Z * option error :=
  ParseInt s 10 0.

(** ** package fmt *)

(** The newline as a Go string. *)
Definition nl : string := String "010"%char EmptyString.

(** A [rune] is a Unicode code point. Standard input is taken as the
    runes the scanner decodes from it, and what a read past them reports:
    [None] for [io.EOF], [Some e] for an I/O error [e]. *)
Definition rune := Z.

Record Stdin : Type := {
  pending : list rune;
  at_end : option error
}.

(** [utf8.EncodeRune]: the bytes of a rune in a Go string. *)
Definition byte_of (z : Z) : ascii := ascii_of_N (Z.to_N z).

Definition utf8_EncodeRune (r : rune) : string :=
  let RuneError := String (byte_of 239) (String (byte_of 191) (String (byte_of 189) EmptyString)) in
  if r <? 0 then RuneError
  else if r <=? 127 then String (byte_of r) EmptyString
  else if r <=? 2047 then
    String (byte_of (Z.lor 192 (Z.shiftr r 6)))
      (String (byte_of (Z.lor 128 (Z.land r 63))) EmptyString)
  else if (r >? 1114111) || ((55296 <=? r) && (r <=? 57343)) then RuneError
  else if r <=? 65535 then
    String (byte_of (Z.lor 224 (Z.shiftr r 12)))
      (String (byte_of (Z.lor 128 (Z.land (Z.shiftr r 6) 63)))
         (String (byte_of (Z.lor 128 (Z.land r 63))) EmptyString))
  else
    String (byte_of (Z.lor 240 (Z.shiftr r 18)))
      (String (byte_of (Z.lor 128 (Z.land (Z.shiftr r 12) 63)))
         (String (byte_of (Z.lor 128 (Z.land (Z.shiftr r 6) 63)))
            (String (byte_of (Z.lor 128 (Z.land r 63))) EmptyString))).

Fixpoint string_of_runes (rs : list rune) : string :=
  match rs with
  | [] => EmptyString
  | r :: rs' => utf8_EncodeRune r +:+ string_of_runes rs'
  end.

(** The table [space] of fmt/scan.go and [isSpace]. *)
Definition space : list (Z * Z) :=
  [ (9, 13); (32, 32); (133, 133); (160, 160); (5760, 5760); (8192, 8202);
    (8232, 8233); (8239, 8239); (8287, 8287); (12288, 12288) ].

Fixpoint in_ranges (rx : Z) (rngs : list (Z * Z)) : bool :=
  match rngs with
  | [] => false
  | (lo, hi) :: rest =>
      if rx <? lo then false
      else if rx <=? hi then true
      else in_ranges rx rest
  end.

Definition isSpace (r : rune) : bool :=
  if r >=? 65536 then false else in_ranges r space.

(** The scanner functions return their result, or the error they stop
    with, and the runes left unread. *)
Definition scan (A : Type) : Type := (A + error) * list rune.

(** What [getRune] finds at the end of the pending runes ([eof] is
    [inl tt]; another read error stops the scan). *)
Definition at_eof (tail : option error) : unit + error :=
  match tail with
  | None => inl tt
  | Some e => inr e
  end.

(** [ss.SkipSpace] in the mode of [Scanln], where a newline is not
    space. *)
Fixpoint SkipSpace (tail : option error) (inp : list rune) : scan unit :=
  match inp with
  | [] => (at_eof tail, [])
  | r :: rest =>
      if (r =? 13) && (match rest with r' :: _ => r' =? 10 | [] => false end)
      then SkipSpace tail rest
      else if r =? 10 then (inr (errors_New "unexpected newline"), rest)
      else if negb (isSpace r) then (inl tt, inp)
      else SkipSpace tail rest
  end.

(** The reading loop of [ss.token] with the predicate [notSpace]: the
    runes up to white space or the end of the input. *)
Fixpoint token_notSpace (tail : option error) (inp : list rune) : scan (list rune) :=
  match inp with
  | [] =>
      match at_eof tail with
      | inl _ => (inl [], [])
      | inr e => (inr e, [])
      end
  | r :: rest =>
      if isSpace r then (inl [], inp)
      else
        match token_notSpace tail rest with
        | (inl tok, rest') => (inl (r :: tok), rest')
        | (inr e, rest') => (inr e, rest')
        end
  end.

(** The check of [doScan] after the last operand in [Scanln]: only space
    up to a newline or the end of the input. *)
Fixpoint expect_newline (tail : option error) (inp : list rune) : scan unit :=
  match inp with
  | [] => (at_eof tail, [])
  | r :: rest =>
      if r =? 10 then (inl tt, rest)
      else if negb (isSpace r) then (inr (errors_New "expected newline"), rest)
      else expect_newline tail rest
  end.

(** [ss.convertString] for the verb [%v]: skip space, require input,
    read the next word. *)
Definition convertString (tail : option error) (inp : list rune) : scan string :=
  match SkipSpace tail inp with
  | (inr e, rest) => (inr e, rest)
  | (inl _, rest) =>
      (* notEOF *)
      match rest with
      | [] => (inr (match tail with None => io_EOF | Some e => e end), rest)
      | _ :: _ =>
          (* token(true, notSpace) *)
          match SkipSpace tail rest with
          | (inr e, rest') => (inr e, rest')
          | (inl _, rest') =>
              match token_notSpace tail rest' with
              | (inl tok, rest'') => (inl (string_of_runes tok), rest'')
              | (inr e, rest'') => (inr e, rest'')
              end
          end
      end
  end.

(** [fmt.Scanln(&answer)] with one [*string] operand whose variable holds
    [answer0]: the value of the variable afterwards, the error, and the
    standard input left. *)
Definition fmt_Scanln (answer0 : string) (i : Stdin) : (string * option error) * Stdin :=
  let tail := at_end i in
  match convertString tail (pending i) with
  | (inr e, rest) => ((answer0, Some e), {| pending := rest; at_end := tail |})
  | (inl answer, rest) =>
      match expect_newline tail rest with
      | (inr e, rest') => ((answer, Some e), {| pending := rest'; at_end := tail |})
      | (inl _, rest') => ((answer, None), {| pending := rest'; at_end := tail |})
      end
  end.

(** ** The tokens of the scale command, in the words of the specification *)

(** A decimal digit, and the value of a digit string read after [acc]. *)
Definition is_digit (c : ascii) : bool := (48 <=? byte_val c) && (byte_val c <=? 57).

Fixpoint all_digits (s : string) : bool :=
  match s with
  | EmptyString => true
  | String c s' => is_digit c && all_digits s'
  end.

Fixpoint decimal_value (s : string) (acc : Z) : Z :=
  match s with
  | EmptyString => acc
  | String c s' => decimal_value s' (acc * 10 + (byte_val c - 48))
  end.

(** [int_literal s z]: [s] is a valid integer, the decimal notation of
    [z] with an optional sign, and [z] fits an [int]. *)
Inductive int_literal : string -> Z -> Prop :=
| int_unsigned (body : string) :
    body <> EmptyString -> all_digits body = true ->
    decimal_value body 0 <= 2 ^ 63 - 1 ->
    int_literal body (decimal_value body 0)
| int_plus (body : string) :
    body <> EmptyString -> all_digits body = true ->
    decimal_value body 0 <= 2 ^ 63 - 1 ->
    int_literal (String "+" body) (decimal_value body 0)
| int_minus (body : string) :
    body <> EmptyString -> all_digits body = true ->
    decimal_value body 0 <= 2 ^ 63 ->
    int_literal (String "-" body) (- decimal_value body 0).

Fixpoint contains_byte (b : ascii) (s : string) : bool :=
  match s with
  | EmptyString => false
  | String c s' => Ascii.eqb c b || contains_byte b s'
  end.

(** [scale_token tok name z]: [tok] is the well-formed token
    [name=count], where [count] is a valid integer of value [z] and is
    what follows the first [=]. *)
Inductive scale_token : string -> string -> Z -> Prop :=
| scale_token_intro (name cnt : string) (z : Z) :
    contains_byte "=" name = false -> int_literal cnt z ->
    scale_token (name +:+ "=" +:+ cnt) name z.

(** A malformed token: no [=] separator, or a count that is not a valid
    integer. *)
Definition malformed (tok : string) : Prop :=
  contains_byte "=" tok = false
  \/ exists name cnt, tok = name +:+ "=" +:+ cnt /\ contains_byte "=" name = false
                      /\ forall z, ~ int_literal cnt z.

(** The count of the last of the pairs [(name, count)] that bears
    [name]. *)
Fixpoint last_count (name : string) (pairs : list (string * Z)) : option Z :=
  match pairs with
  | [] => None
  | (n, z) :: rest =>
      match last_count name rest with
      | Some z' => Some z'
      | None => if String.eqb n name then Some z else None
      end
  end.

(** The runes of an ASCII text, to write inputs down. *)
Fixpoint runes_of (s : string) : list rune :=
  match s with
  | EmptyString => []
  | String c s' => byte_val c :: runes_of s'
  end.

Definition typed (s : string) : Stdin := {| pending := runes_of s; at_end := None |}.

(** ** The collaborators *)

(** [cli.Context]: the typed flag accessors and the positional
    arguments. The context is read-only for the handlers. *)
Module cli.
Record Context : Type := {
  Bool : string -> bool;
  Int : string -> Z;
  Args : list string
}.
End cli.

(** package options *)
Module options.
Record Create : Type := {
  NoRecreate : bool;
  ForceRecreate : bool;
  NoBuild : bool
}.
Record Up : Type := { Up_Create : Create }.
Record Delete : Type := { RemoveVolume : bool }.
End options.

(** [project.APIProject], the interface of the orchestration project, as
    far as the handlers below call it. An implementation has a state of
    type [P]; every method returns its Go results and the next state. *)
Module project.
Class APIProject (P : Type) : Type := {
  Up : options.Up -> list string -> P -> option error * P;
  Log : bool -> list string -> P -> option error * P;
  Stop : Z -> list string -> P -> option error * P;
  Run : string -> list string -> P -> (Z * option error) * P;
  Start : list string -> P -> option error * P;
  Restart : Z -> list string -> P -> option error * P;
  ListStoppedContainers : list string -> P -> (list string * option error) * P;
  Delete : options.Delete -> list string -> P -> option error * P;
  Scale : Z -> gmap string Z -> P -> option error * P
}.
End project.

(** A call on the Project Handle: the method with its arguments. *)
Inductive Op : Type :=
| OpUp (o : options.Up) (services : list string)
| OpLog (follow : bool) (services : list string)
| OpStop (timeout : Z) (services : list string)
| OpRun (service : string) (commandParts : list string)
| OpStart (services : list string)
| OpRestart (timeout : Z) (services : list string)
| OpListStoppedContainers (services : list string)
| OpDelete (o : options.Delete) (services : list string)
| OpScale (timeout : Z) (servicesScale : gmap string Z).

(** The timeout argument of a call, for the methods that have one. *)
Definition op_timeout (o : Op) : option Z :=
  match o with
  | OpStop t _ | OpRestart t _ | OpScale t _ => Some t
  | _ => None
  end.

Definition is_stop (call : Op * option error) : bool :=
  match fst call with OpStop _ _ => true | _ => false end.

(** ** The world of a handler *)

(** What a handler acts on: the project [p], the log of the calls made
    on it (each with the error it returned), what was written to standard
    output, and standard input. *)
Record World (P : Type) : Type := {
  proj : P;
  calls : list (Op * option error);
  stdout : list string;
  stdin : Stdin
}.
Arguments proj {P} _.
Arguments calls {P} _.
Arguments stdout {P} _.
Arguments stdin {P} _.

(** The arguments of a logrus call. *)
Inductive LogArg : Type :=
| AStr (s : string)
| AErr (e : error).

(** The ways a handler ends other than by returning: [logrus.Fatal] and
    [logrus.Fatalf] (which log and exit with status 1), [os.Exit], and a
    run-time panic. *)
Inductive Abort : Type :=
| Fatal (args : list LogArg)
| Fatalf (format : string) (args : list LogArg)
| os_Exit (code : Z)
| panic (msg : string).

(** A handler computation: it returns a value or aborts, and leaves a
    world. *)
Definition Handler (P A : Type) : Type := World P -> (A + Abort) * World P.

Definition ret {P A} (a : A) : Handler P A := fun w => (inl a, w).

Definition bind {P A B} (m : Handler P A) (k : A -> Handler P B) : Handler P B :=
  fun w =>
    match m w with
    | (inl a, w') => k a w'
    | (inr ab, w') => (inr ab, w')
    end.

Definition abort {P A} (ab : Abort) : Handler P A := fun w => (inr ab, w).

Notation "'let*' x ':=' m 'in' k" := (bind m (fun x => k))
  (at level 10, x pattern, m at level 100, k at level 200).

(** A method call on the Project Handle: run the method on the project
    state and log the call. *)
Definition call {P A} (op : Op) (method : P -> A * P) (err_of : A -> option error)
  : Handler P A :=
  fun w =>
    let '(r, p') := method (proj w) in
    (inl r, {| proj := p'; calls := calls w ++ [(op, err_of r)];
               stdout := stdout w; stdin := stdin w |}).

(** Writing to standard output. *)
Definition os_Stdout_Write {P} (s : string) : Handler P unit :=
  fun w => (inl tt, {| proj := proj w; calls := calls w;
                       stdout := stdout w ++ [s]; stdin := stdin w |}).

Definition fmt_Println {P} (s : string) : Handler P unit := os_Stdout_Write (s +:+ nl).

(** [fmt.Scanln(&answer)] on the standard input of the world. *)
Definition Scanln {P} (answer0 : string) : Handler P (string * option error) :=
  fun w =>
    let '(r, i') := fmt_Scanln answer0 (stdin w) in
    (inl r, {| proj := proj w; calls := calls w; stdout := stdout w; stdin := i' |}).

(** ** The handlers *)

Section Handlers.
Context {P : Type} `{project.APIProject P}.

(** ProjectStop stops all services. *)
Definition ProjectStop (c : cli.Context) : Handler P unit :=
  let* err := call (OpStop (cli.Int c "timeout") (cli.Args c))
                   (project.Stop (cli.Int c "timeout") (cli.Args c)) id in
  match err with
  | Some e => abort (Fatal [AErr e])
  | None => ret tt
  end.

(** ProjectRun runs a given command within a service's container. *)
Definition ProjectRun (c : cli.Context) : Handler P unit :=
  let* _ := (if (length (cli.Args c) =? 1)%nat
             then abort (Fatal [AStr "No service specified"])
             else ret tt) in
  match cli.Args c with
  | [] => abort (panic "runtime error: index out of range")
  | serviceName :: commandParts =>
      let* r := call (OpRun serviceName commandParts)
                     (project.Run serviceName commandParts) snd in
      match snd r with
      | Some e => abort (Fatal [AErr e])
      | None => abort (os_Exit (fst r))
      end
  end.

(** ProjectStart starts services. *)
Definition ProjectStart (c : cli.Context) : Handler P unit :=
  let* err := call (OpStart (cli.Args c)) (project.Start (cli.Args c)) id in
  match err with
  | Some e => abort (Fatal [AErr e])
  | None => ret tt
  end.

(** ProjectRestart restarts services. *)
Definition ProjectRestart (c : cli.Context) : Handler P unit :=
  let* err := call (OpRestart (cli.Int c "timeout") (cli.Args c))
                   (project.Restart (cli.Int c "timeout") (cli.Args c)) id in
  match err with
  | Some e => abort (Fatal [AErr e])
  | None => ret tt
  end.

(** ProjectDelete deletes services. *)
Definition ProjectDelete (c : cli.Context) : Handler P unit :=
  let* r := call (OpListStoppedContainers (cli.Args c))
                 (project.ListStoppedContainers (cli.Args c)) snd in
  let stoppedContainers := fst r in
  match snd r with
  | Some e => abort (Fatal [AErr e])
  | None =>
      if (length stoppedContainers =? 0)%nat then
        fmt_Println "No stopped containers"
      else
        let* proceed :=
          (if negb (cli.Bool c "force") then
             let* _ := os_Stdout_Write
                         ("Going to remove " +:+ strings_Join stoppedContainers ", "
                          +:+ nl +:+ "Are you sure? [yN]" +:+ nl) in
             let* scanned := Scanln EmptyString in
             let answer := fst scanned in
             match snd scanned with
             | Some e => abort (Fatal [AErr e])
             | None =>
                 if negb (String.eqb answer "y") && negb (String.eqb answer "Y")
                 then ret false
                 else ret true
             end
           else ret true) in
        if proceed then
          let options := {| options.RemoveVolume := cli.Bool c "v" |} in
          let* err := call (OpDelete options (cli.Args c))
                           (project.Delete options (cli.Args c)) id in
          match err with
          | Some e => abort (Fatal [AErr e])
          | None => ret tt
          end
        else ret tt
  end.

(** The loop of ProjectScale over the positional arguments: the scale
    map, or the fatal exit of the first argument that does not parse. *)
Fixpoint scale_loop (args : list string) (servicesScale : gmap string Z)
  : gmap string Z + Abort :=
  match args with
  | [] => inl servicesScale
  | arg :: rest =>
      let kv := strings_SplitN arg "=" 2 in
      match kv with
      | [name; cnt] =>
          match strconv_Atoi cnt with
          | (_, Some err) => inr (Fatalf "Invalid scale parameter: %v" [AErr err])
          | (count, None) => scale_loop rest (<[name := count]> servicesScale)
          end
      | _ => inr (Fatalf "Invalid scale parameter: %s" [AStr arg])
      end
  end.

(** ProjectScale scales services. *)
Definition ProjectScale (c : cli.Context) : Handler P unit :=
  match scale_loop (cli.Args c) ∅ with
  | inr ab => abort ab
  | inl servicesScale =>
      let* err := call (OpScale (cli.Int c "timeout") servicesScale)
                       (project.Scale (cli.Int c "timeout") servicesScale) id in
      match err with
      | Some e => abort (Fatal [AErr e])
      | None => ret tt
      end
  end.

(** ProjectUp brings all services up: the part before the goroutines
    (the call of [p.Up] and its fatal exit). *)
Definition ProjectUp_start (c : cli.Context) : Handler P unit :=
  let options := {| options.Up_Create :=
                      {| options.NoRecreate := cli.Bool c "no-recreate";
                         options.ForceRecreate := cli.Bool c "force-recreate";
                         options.NoBuild := cli.Bool c "no-build" |} |} in
  let* err := call (OpUp options (cli.Args c)) (project.Up options (cli.Args c)) id in
  match err with
  | Some e => abort (Fatal [AErr e])
  | None => ret tt
  end.

End Handlers.

(** ** The goroutines of ProjectUp in attached mode *)

(** After [p.Up] succeeded and without the flag [d], ProjectUp starts two
    goroutines and waits for [cleanupDone]. The three tasks and the
    channels are modelled as a transition system; a schedule is the list
    of the steps taken, in order. *)

Inductive Signal : Type := SIGINT | SIGTERM.

(** The goroutine of line 136: inside [p.Log], blocked in the send on the
    unbuffered [errChan], or finished. *)
Inductive LogTask : Type :=
| LogRunning
| LogSending (err : option error)
| LogFinished.

(** The goroutine of line 139, by the line it is at: blocked in the
    [select]; about to run ProjectStop (line 143); blocked in the send on
    [cleanupDone] (lines 144 and 149); in [logrus.Fatal] (line 147);
    finished. *)
Inductive SigTask : Type :=
| AtSelect
| AtStop
| AtSend
| AtFatal
| SigFinished.

(** ProjectUp itself: blocked in [<-cleanupDone] (line 152) or returned. *)
Inductive MainTask : Type :=
| MainWaiting
| MainReturned.

(** The case the [select] took. *)
Inductive SelectCase : Type :=
| CaseSignal (sig : Signal)
| CaseErr (err : option error).

Record UpState (P : Type) : Type := {
  world : World P;
  signalChan : list Signal;          (* buffered, capacity 1 *)
  logTask : LogTask;
  sigTask : SigTask;
  mainTask : MainTask;
  exited : option Abort;             (* the process was ended by logrus.Fatal *)
  selected : option SelectCase;      (* what the select received, once it has *)
  completions : nat                  (* values sent on cleanupDone *)
}.
Arguments world {P} _.
Arguments signalChan {P} _.
Arguments logTask {P} _.
Arguments sigTask {P} _.
Arguments mainTask {P} _.
Arguments exited {P} _.
Arguments selected {P} _.
Arguments completions {P} _.

(** The steps of a schedule. *)
Inductive Action : Type :=
| Deliver (sig : Signal)   (* the operating system delivers SIGINT or SIGTERM *)
| LogReturns               (* [p.Log] returns; its goroutine offers the result on errChan *)
| SelectSignal             (* the select takes [case <-signalChan] and prints the notice *)
| SelectErr                (* the select takes [case err := <-errChan] *)
| RunStop                  (* [ProjectStop(p, c)] on line 143 *)
| Complete.                (* [cleanupDone <- true] meets [<-cleanupDone] *)

Section Up.
Context {P : Type} `{project.APIProject P}.

(** The state at line 136, from the world that [p.Up] left. *)
Definition attach (w : World P) : UpState P :=
  {| world := w; signalChan := []; logTask := LogRunning; sigTask := AtSelect;
     mainTask := MainWaiting; exited := None; selected := None; completions := O |}.

(** The execution is over when ProjectUp has returned or the process has
    exited. *)
Definition terminal (st : UpState P) : bool :=
  match mainTask st, exited st with
  | MainWaiting, None => false
  | _, _ => true
  end.

(** One step; [None] when the step cannot be taken in the state. A
    signal is queued by [signal.Notify] without blocking and dropped
    when the buffer is full. [p.Log] acts on the project when it
    returns. When both cases of the select can proceed, either may be
    taken. *)
Definition step (c : cli.Context) (a : Action) (st : UpState P) : option (UpState P) :=
  if terminal st then None else
  match a with
  | Deliver sig =>
      Some {| world := world st;
              signalChan := if (length (signalChan st) <? 1)%nat
                            then signalChan st ++ [sig] else signalChan st;
              logTask := logTask st; sigTask := sigTask st; mainTask := mainTask st;
              exited := exited st; selected := selected st;
              completions := completions st |}
  | LogReturns =>
      match logTask st with
      | LogRunning =>
          match call (OpLog true (cli.Args c)) (project.Log true (cli.Args c)) id (world st) with
          | (inl err, w') =>
              Some {| world := w'; signalChan := signalChan st;
                      logTask := LogSending err; sigTask := sigTask st;
                      mainTask := mainTask st; exited := exited st;
                      selected := selected st; completions := completions st |}
          | (inr _, _) => None
          end
      | _ => None
      end
  | SelectSignal =>
      match sigTask st, signalChan st with
      | AtSelect, sig :: queue =>
          match os_Stdout_Write (nl +:+ "Gracefully stopping..." +:+ nl) (world st) with
          | (_, w') =>
              Some {| world := w'; signalChan := queue; logTask := logTask st;
                      sigTask := AtStop; mainTask := mainTask st; exited := exited st;
                      selected := Some (CaseSignal sig); completions := completions st |}
          end
      | _, _ => None
      end
  | SelectErr =>
      match sigTask st, logTask st with
      | AtSelect, LogSending err =>
          Some {| world := world st; signalChan := signalChan st;
                  logTask := LogFinished;
                  sigTask := match err with Some _ => AtFatal | None => AtSend end;
                  mainTask := mainTask st;
                  exited := match err with
                            | Some e => Some (Fatal [AErr e])
                            | None => exited st
                            end;
                  selected := Some (CaseErr err); completions := completions st |}
      | _, _ => None
      end
  | RunStop =>
      match sigTask st with
      | AtStop =>
          match ProjectStop c (world st) with
          | (inl _, w') =>
              Some {| world := w'; signalChan := signalChan st; logTask := logTask st;
                      sigTask := AtSend; mainTask := mainTask st; exited := exited st;
                      selected := selected st; completions := completions st |}
          | (inr ab, w') =>
              Some {| world := w'; signalChan := signalChan st; logTask := logTask st;
                      sigTask := AtStop; mainTask := mainTask st; exited := Some ab;
                      selected := selected st; completions := completions st |}
          end
      | _ => None
      end
  | Complete =>
      match sigTask st, mainTask st with
      | AtSend, MainWaiting =>
          Some {| world := world st; signalChan := signalChan st; logTask := logTask st;
                  sigTask := SigFinished; mainTask := MainReturned; exited := exited st;
                  selected := selected st; completions := S (completions st) |}
      | _, _ => None
      end
  end.

(** Running a schedule. *)
Fixpoint exec (c : cli.Context) (sched : list Action) (st : UpState P) : option (UpState P) :=
  match sched with
  | [] => Some st
  | a :: sched' =>
      match step c a st with
      | Some st' => exec c sched' st'
      | None => None
      end
  end.

(** The steps the goroutine of line 139 takes on its own once its
    select has fired: ProjectStop when it is due, then the send that
    ProjectUp is waiting for. *)
Definition finish (c : cli.Context) (st : UpState P) : option (UpState P) :=
  match sigTask st with
  | AtStop =>
      match step c RunStop st with
      | Some st' => if terminal st' then Some st' else step c Complete st'
      | None => None
      end
  | AtSend => step c Complete st
  | _ => None
  end.

(** ProjectUp as a whole, for a schedule of its goroutines: the
    outcome when the execution is over ([None] when the schedule cannot
    be run; [Some (None, _)] while ProjectUp is still waiting). *)
Definition ProjectUp (c : cli.Context) (sched : list Action) (w : World P)
  : option (option (unit + Abort) * World P) :=
  match ProjectUp_start c w with
  | (inr ab, w') => Some (Some (inr ab), w')
  | (inl _, w') =>
      if negb (cli.Bool c "d") then
        match exec c sched (attach w') with
        | Some st =>
            Some (match exited st, mainTask st with
                  | Some ab, _ => Some (inr ab)
                  | None, MainReturned => Some (inl tt)
                  | None, MainWaiting => None
                  end, world st)
        | None => None
        end
      else Some (Some (inl tt), w')
  end.

(** The stop calls in the call log of a world. *)
Definition stop_calls (w : World P) : list (Op * option error) :=
  List.filter is_stop (calls w).

(** The stop call of ProjectStop for the context [c]. *)
Definition the_stop (c : cli.Context) : Op := OpStop (cli.Int c "timeout") (cli.Args c).

(** The phases of the coordination started from the world [w0]: what
    the select received, the line the goroutine of line 139 is at, the
    process and ProjectUp, and for each the completion signals sent
    and the stop calls made so far. *)
Definition phase (c : cli.Context) (w0 : World P) (st : UpState P) : Prop :=
  match selected st, sigTask st, exited st, mainTask st with
  | None, AtSelect, None, MainWaiting =>
      completions st = O /\ stop_calls (world st) = stop_calls w0
  | Some (CaseSignal _), AtStop, None, MainWaiting =>
      completions st = O /\ stop_calls (world st) = stop_calls w0
  | Some (CaseSignal _), AtStop, Some ab, MainWaiting =>
      exists e, ab = Fatal [AErr e] /\ completions st = O
                /\ stop_calls (world st) = stop_calls w0 ++ [(the_stop c, Some e)]
  | Some (CaseSignal _), AtSend, None, MainWaiting =>
      completions st = O
      /\ stop_calls (world st) = stop_calls w0 ++ [(the_stop c, None)]
  | Some (CaseSignal _), SigFinished, None, MainReturned =>
      completions st = 1%nat
      /\ stop_calls (world st) = stop_calls w0 ++ [(the_stop c, None)]
  | Some (CaseErr None), AtSend, None, MainWaiting =>
      completions st = O /\ stop_calls (world st) = stop_calls w0
  | Some (CaseErr None), SigFinished, None, MainReturned =>
      completions st = 1%nat /\ stop_calls (world st) = stop_calls w0
  | Some (CaseErr (Some e)), AtFatal, Some ab, MainWaiting =>
      ab = Fatal [AErr e] /\ completions st = O
      /\ stop_calls (world st) = stop_calls w0
  | _, _, _, _ => False
  end.

End Up.

(** A project for tests: every method succeeds and returns the values
    given here; its state counts the calls. *)
Record Mock : Type := {
  mock_stopped : list string;      (* the result of ListStoppedContainers *)
  mock_stop : option error;        (* the result of Stop *)
  mock_log : option error;         (* the result of Log *)
  mock_count : nat
}.

Definition tick (m : Mock) : Mock :=
  {| mock_stopped := mock_stopped m; mock_stop := mock_stop m;
     mock_log := mock_log m; mock_count := S (mock_count m) |}.

#[export] Instance Mock_APIProject : project.APIProject Mock := {
  project.Up _ _ m := (None, tick m);
  project.Log _ _ m := (mock_log m, tick m);
  project.Stop _ _ m := (mock_stop m, tick m);
  project.Run _ _ m := ((0, None), tick m);
  project.Start _ m := (None, tick m);
  project.Restart _ _ m := (None, tick m);
  project.ListStoppedContainers _ m := ((mock_stopped m, None), tick m);
  project.Delete _ _ m := (None, tick m);
  project.Scale _ _ m := (None, tick m)
}.

Definition mock (stopped : list string) : Mock :=
  {| mock_stopped := stopped; mock_stop := None; mock_log := None; mock_count := O |}.

Definition fresh {P} (p : P) (i : Stdin) : World P :=
  {| proj := p; calls := []; stdout := []; stdin := i |}.

Definition context (args : list string) (force : bool) (timeout : Z) : cli.Context :=
  {| cli.Bool := fun name => if String.eqb name "force" then force else false;
     cli.Int := fun name => if String.eqb name "timeout" then timeout else 0;
     cli.Args := args |}.

(** The state a schedule leads to (the starting state when the schedule
    cannot be run). *)
Definition after {P : Type} `{project.APIProject P}
    (c : cli.Context) (sched : list Action) (w : World P) : UpState P :=
  match exec c sched (attach w) with
  | Some st => st
  | None => attach w
  end.

(** Inputs of the examples below. *)
Definition mock_failing_stop : Mock :=
  {| mock_stopped := []; mock_stop := Some (errors_New "cannot stop");
     mock_log := None; mock_count := O |}.

Definition up_context : cli.Context := context ["web"] false 10.
Definition up_world : World Mock := fresh (mock []) (typed EmptyString).
Definition up_world_failing : World Mock := fresh mock_failing_stop (typed EmptyString).

(** ** The rest of app.go *)

(** The accessors of [cli.Context] that the handlers above do not use:
    [c.String] and [c.GlobalBool], beside the context [base] with the
    others. *)
Module cli_ext.
Record Context : Type := {
  base : cli.Context;
  String : string -> string;
  GlobalBool : string -> bool
}.
End cli_ext.

(** The option structs of package options that the handlers above do not
    use. *)
Module options_ext.
Record Down : Type := { RemoveVolume : bool }.
Record Build : Type := { NoCache : bool }.
End options_ext.

(** The methods of [project.APIProject] that the handlers above do not
    call. [InfoSet] is the result type of [Ps] and [InfoSet_String] its
    method [String(titleFlag)]. *)
Module project_ext.
Class Methods (P : Type) : Type := {
  InfoSet : Type;
  InfoSet_String : InfoSet -> bool -> string;
  Ps : bool -> list string -> P -> (InfoSet * option error) * P;
  Port : Z -> string -> string -> string -> P -> (string * option error) * P;
  Down : options_ext.Down -> list string -> P -> option error * P;
  Build : options_ext.Build -> list string -> P -> option error * P;
  Create : options.Create -> list string -> P -> option error * P;
  Pull : list string -> P -> option error * P;
  Kill : string -> list string -> P -> option error * P;
  Pause : list string -> P -> option error * P;
  Unpause : list string -> P -> option error * P
}.
End project_ext.

(** A call of one of these methods: it acts on the project state; the
    call log of the world keeps to the methods of [Op]. *)
Definition invoke {P A} (method : P -> A * P) : Handler P A :=
  fun w =>
    let '(r, p') := method (proj w) in
    (inl r, {| proj := p'; calls := calls w; stdout := stdout w; stdin := stdin w |}).

(** The second positional argument and beyond are reached by index, which
    panics out of range. *)
Definition index_args {P} (args : list string) (i : nat) : Handler P string :=
  match nth_error args i with
  | Some a => ret a
  | None => abort (panic "runtime error: index out of range")
  end.

Section MoreHandlers.
Context {P : Type} `{project.APIProject P} `{project_ext.Methods P}.

(** ProjectPs lists the containers. *)
Definition ProjectPs (c : cli.Context) : Handler P unit :=
  let qFlag := cli.Bool c "q" in
  let* r := invoke (project_ext.Ps qFlag (cli.Args c)) in
  match snd r with
  | Some e => abort (Fatal [AErr e])
  | None => os_Stdout_Write (project_ext.InfoSet_String (fst r) (negb qFlag))
  end.

(** ProjectPort prints the public port for a port binding. *)
Definition ProjectPort (c : cli_ext.Context) : Handler P unit :=
  let args := cli.Args (cli_ext.base c) in
  let* _ := (if negb (length args =? 2)%nat
             then abort (Fatalf "Please pass arguments in the form: SERVICE PORT" [])
             else ret tt) in
  let index := cli.Int (cli_ext.base c) "index" in
  let protocol := cli_ext.String c "protocol" in
  let* serviceName := index_args args 0 in
  let* privatePort := index_args args 1 in
  let* r := invoke (project_ext.Port index protocol serviceName privatePort) in
  match snd r with
  | Some e => abort (Fatal [AErr e])
  | None => fmt_Println (fst r)
  end.

(** ProjectDown brings all services down (stops and clean containers). *)
Definition ProjectDown (c : cli.Context) : Handler P unit :=
  let options := {| options_ext.RemoveVolume := cli.Bool c "v" |} in
  let* err := invoke (project_ext.Down options (cli.Args c)) in
  match err with
  | Some e => abort (Fatal [AErr e])
  | None => ret tt
  end.

(** ProjectBuild builds or rebuilds services. *)
Definition ProjectBuild (c : cli.Context) : Handler P unit :=
  let config := {| options_ext.NoCache := cli.Bool c "no-cache" |} in
  let* err := invoke (project_ext.Build config (cli.Args c)) in
  match err with
  | Some e => abort (Fatal [AErr e])
  | None => ret tt
  end.

(** ProjectCreate creates all services but do not start them. *)
Definition ProjectCreate (c : cli.Context) : Handler P unit :=
  let options := {| options.NoRecreate := cli.Bool c "no-recreate";
                    options.ForceRecreate := cli.Bool c "force-recreate";
                    options.NoBuild := cli.Bool c "no-build" |} in
  let* err := invoke (project_ext.Create options (cli.Args c)) in
  match err with
  | Some e => abort (Fatal [AErr e])
  | None => ret tt
  end.

(** ProjectLog gets services logs. *)
Definition ProjectLog (c : cli.Context) : Handler P unit :=
  let* err := call (OpLog (cli.Bool c "follow") (cli.Args c))
                   (project.Log (cli.Bool c "follow") (cli.Args c)) id in
  match err with
  | Some e => abort (Fatal [AErr e])
  | None => ret tt
  end.

(** ProjectPull pulls images for services. *)
Definition ProjectPull (c : cli.Context) : Handler P unit :=
  let* err := invoke (project_ext.Pull (cli.Args c)) in
  match err with
  | Some e => abort (Fatal [AErr e])
  | None => ret tt
  end.

(** ProjectKill forces stop service containers. *)
Definition ProjectKill (c : cli_ext.Context) : Handler P unit :=
  let* err := invoke (project_ext.Kill (cli_ext.String c "signal")
                        (cli.Args (cli_ext.base c))) in
  match err with
  | Some e => abort (Fatal [AErr e])
  | None => ret tt
  end.

(** ProjectPause pauses service containers. *)
Definition ProjectPause (c : cli.Context) : Handler P unit :=
  let* err := invoke (project_ext.Pause (cli.Args c)) in
  match err with
  | Some e => abort (Fatal [AErr e])
  | None => ret tt
  end.

(** ProjectUnpause unpauses service containers. *)
Definition ProjectUnpause (c : cli.Context) : Handler P unit :=
  let* err := invoke (project_ext.Unpause (cli.Args c)) in
  match err with
  | Some e => abort (Fatal [AErr e])
  | None => ret tt
  end.

End MoreHandlers.

(** The world with another project in it. *)
Definition with_proj {P Q} (q : Q) (w : World P) : World Q :=
  {| proj := q; calls := calls w; stdout := stdout w; stdin := stdin w |}.

(** ProjectAction, for a context type [C]. *)
Definition ProjectAction (C P : Type) : Type := C -> Handler P unit.

(** WithProject is a helper function to create a cli.Command action with
    a ProjectFactory. The factory is a parameter: [factory.Create] gives
    a project or an error for the context. Before the action runs there
    is no project in the world ([None]). *)
Definition WithProject {C P} (factory : C -> P + error) (action : ProjectAction C P)
    (context : C) : Handler (option P) unit :=
  fun w =>
    match factory context with
    | inr err => (inr (Fatalf "Failed to read project: %v" [AErr err]), w)
    | inl p =>
        let '(r, w') := action context (with_proj p w) in
        (r, with_proj (Some (proj w')) w')
    end.

(** The logrus logger as far as BeforeApp uses it: the level and what was
    logged. An entry is logged when the level of the logger is at least
    the level of the entry. *)
Inductive Level : Type :=
| PanicLevel | FatalLevel | ErrorLevel | WarnLevel | InfoLevel | DebugLevel.

Definition level_rank (l : Level) : nat :=
  match l with
  | PanicLevel => 0 | FatalLevel => 1 | ErrorLevel => 2
  | WarnLevel => 3 | InfoLevel => 4 | DebugLevel => 5
  end.

Record Logger : Type := {
  logger_Level : Level;
  logger_Out : list (Level * string)
}.

Definition logrus_SetLevel (l : Level) (lg : Logger) : Logger :=
  {| logger_Level := l; logger_Out := logger_Out lg |}.

Definition logrus_Warning (msg : string) (lg : Logger) : Logger :=
  if (level_rank WarnLevel <=? level_rank (logger_Level lg))%nat
  then {| logger_Level := logger_Level lg; logger_Out := logger_Out lg ++ [(WarnLevel, msg)] |}
  else lg.

Definition disclaimer : string :=
  "Note: This is an experimental alternate implementation of the Compose CLI (https://github.com/docker/compose)".

(** BeforeApp is an action that is executed before any cli command. *)
Definition BeforeApp (c : cli_ext.Context) (lg : Logger) : option error * Logger :=
  let lg1 := if cli_ext.GlobalBool c "verbose" then logrus_SetLevel DebugLevel lg else lg in
  (None, logrus_Warning disclaimer lg1).

(** The calls of [p.Log] in the call log of a world. *)
Definition is_log (call : Op * option error) : bool :=
  match fst call with OpLog _ _ => true | _ => false end.

Definition log_calls {P} (w : World P) : list (Op * option error) :=
  List.filter is_log (calls w).

(** The calls of [p.Delete] and of [p.Run] in a call log. *)
Definition is_delete (call : Op * option error) : bool :=
  match fst call with OpDelete _ _ => true | _ => false end.

Definition is_run (call : Op * option error) : bool :=
  match fst call with OpRun _ _ => true | _ => false end.

(** A blank: white space other than the newline and the carriage
    return. *)
Definition is_blank (r : rune) : bool :=
  isSpace r && negb (r =? 10) && negb (r =? 13).

(** The notice of line 142. *)
Definition notice : string := nl +:+ "Gracefully stopping..." +:+ nl.

(** The steps of a schedule that come from outside the goroutine of line
    139: a signal, and the return of [p.Log]. *)
Definition is_event (a : Action) : bool :=
  match a with
  | Deliver _ | LogReturns => true
  | _ => false
  end.

Definition is_deliver (a : Action) : bool :=
  match a with
  | Deliver _ => true
  | _ => false
  end.

Section UpMore.
Context {P : Type} `{project.APIProject P}.

(** The log task and the call log, from the world [w0]: [p.Log] is
    called once, in follow mode, and what the select receives from
    [errChan] is what the call returned. *)
Definition log_phase (c : cli.Context) (w0 : World P) (st : UpState P) : Prop :=
  match logTask st with
  | LogRunning =>
      log_calls (world st) = log_calls w0
      /\ forall err, selected st <> Some (CaseErr err)
  | LogSending err =>
      log_calls (world st) = log_calls w0 ++ [(OpLog true (cli.Args c), err)]
      /\ forall err', selected st <> Some (CaseErr err')
  | LogFinished =>
      exists err, log_calls (world st) = log_calls w0 ++ [(OpLog true (cli.Args c), err)]
                  /\ selected st = Some (CaseErr err)
  end.

(** Standard input and output during the coordination. *)
Definition io_phase (w0 : World P) (st : UpState P) : Prop :=
  stdin (world st) = stdin w0
  /\ stdout (world st)
     = stdout w0 ++ match selected st with
                    | Some (CaseSignal _) => [notice]
                    | _ => []
                    end.

(** The signals: the queue holds at most one, and a signal in the queue
    or taken by the select was delivered by a step of the schedule run so
    far, as was a stop call. *)
Definition signal_phase (w0 : World P) (delivered : bool) (st : UpState P) : Prop :=
  (length (signalChan st) <= 1)%nat
  /\ (delivered = false ->
      signalChan st = [] /\ sigTask st <> AtStop
      /\ (forall sig, selected st <> Some (CaseSignal sig))
      /\ stop_calls (world st) = stop_calls w0).

End UpMore.

(** A mock of the remaining methods. *)
#[export] Instance Mock_Methods : project_ext.Methods Mock := {
  project_ext.InfoSet := list string;
  project_ext.InfoSet_String info titles :=
    (if titles then "Name" +:+ nl else EmptyString) +:+ strings_Join info nl;
  project_ext.Ps _ _ m := ((mock_stopped m, None), tick m);
  project_ext.Port _ _ _ privatePort m := (("0.0.0.0:" +:+ privatePort, None), tick m);
  project_ext.Down _ _ m := (None, tick m);
  project_ext.Build _ _ m := (None, tick m);
  project_ext.Create _ _ m := (None, tick m);
  project_ext.Pull _ m := (None, tick m);
  project_ext.Kill _ _ m := (None, tick m);
  project_ext.Pause _ m := (None, tick m);
  project_ext.Unpause _ m := (None, tick m)
}.

Definition context_ext (args : list string) (protocol : string) (verbose : bool)
  : cli_ext.Context :=
  {| cli_ext.base := context args false 0;
     cli_ext.String := fun name => if String.eqb name "protocol" then protocol else EmptyString;
     cli_ext.GlobalBool := fun name => if String.eqb name "verbose" then verbose else false |}.

(** A project that refuses every call. *)
Inductive Refusing : Type := refusing.

Definition refused : error := errors_New "refused".

#[export] Instance Refusing_APIProject : project.APIProject Refusing := {
  project.Up _ _ p := (Some refused, p);
  project.Log _ _ p := (Some refused, p);
  project.Stop _ _ p := (Some refused, p);
  project.Run _ _ p := ((1, Some refused), p);
  project.Start _ p := (Some refused, p);
  project.Restart _ _ p := (Some refused, p);
  project.ListStoppedContainers _ p := (([], Some refused), p);
  project.Delete _ _ p := (Some refused, p);
  project.Scale _ _ p := (Some refused, p)
}.

Definition mock_failing_log : Mock :=
  {| mock_stopped := []; mock_stop := None;
     mock_log := Some (errors_New "stream closed"); mock_count := O |}.

Definition up_world_failing_log : World Mock := fresh mock_failing_log (typed EmptyString).

(** Proof steps for the transition system: case analysis on what a step
    inspects, on the results of the project methods it calls, and the
    stop calls of a call log that grew at its end. *)
Ltac inspect_step H :=
  repeat match type of H with
         | context [match ?x with _ => _ end] => is_var x; destruct x
         end;
  try discriminate.

Ltac project_results H :=
  unfold ProjectStop, bind, call, abort, ret, os_Stdout_Write in H;
  repeat match type of H with
         | context [project.Log ?a ?b ?p] => destruct (project.Log a b p) as [? ?]
         | context [project.Stop ?a ?b ?p] => destruct (project.Stop a b p) as [[?|] ?]
         end.

Ltac stop_calls_grown w :=
  rewrite ?List.filter_app; cbn [List.filter is_stop fst]; rewrite ?app_nil_r;
  change (List.filter is_stop (calls w)) with (stop_calls w); unfold the_stop in *.

Ltac phase_closed Hph :=
  try (destruct Hph as [-> Hph]; rewrite Hph; tauto);
  try (destruct Hph as [-> Hph]; rewrite Hph; eauto).

(** * Properties *)

(** ** The models of the library functions on examples *)

Example Atoi_decimal : strconv_Atoi "3" = (3, None).
Proof. reflexivity. Qed.

Example Atoi_negative : strconv_Atoi "-12" = (-12, None).
Proof. reflexivity. Qed.

Example Atoi_plus_sign : strconv_Atoi "+7" = (7, None).
Proof. reflexivity. Qed.

Example Atoi_largest : strconv_Atoi "9223372036854775807" = (9223372036854775807, None).
Proof. vm_compute. reflexivity. Qed.

Example Atoi_smallest : strconv_Atoi "-9223372036854775808" = (-9223372036854775808, None).
Proof. vm_compute. reflexivity. Qed.

Example Atoi_out_of_range :
  option_map NumError_Err (snd (strconv_Atoi "9223372036854775808")) = Some ErrRange.
Proof. vm_compute. reflexivity. Qed.

Example Atoi_no_digits : option_map NumError_Err (snd (strconv_Atoi "-")) = Some ErrSyntax.
Proof. reflexivity. Qed.

Example Atoi_word : option_map NumError_Err (snd (strconv_Atoi "two")) = Some ErrSyntax.
Proof. reflexivity. Qed.

Example Atoi_blank : option_map NumError_Err (snd (strconv_Atoi " 3")) = Some ErrSyntax.
Proof. reflexivity. Qed.

Example SplitN_token : strings_SplitN "web=3" "=" 2 = ["web"; "3"].
Proof. reflexivity. Qed.

Example SplitN_no_separator : strings_SplitN "web" "=" 2 = ["web"].
Proof. reflexivity. Qed.

Example SplitN_second_separator : strings_SplitN "a=b=c" "=" 2 = ["a"; "b=c"].
Proof. reflexivity. Qed.

Example Join_names : strings_Join ["web_1"; "db_1"] ", " = "web_1, db_1".
Proof. reflexivity. Qed.

Example Scanln_y : fmt_Scanln EmptyString (typed ("y" +:+ nl)) = (("y", None), typed EmptyString).
Proof. vm_compute. reflexivity. Qed.

Example Scanln_blanks_around :
  fst (fmt_Scanln EmptyString (typed (" y " +:+ nl +:+ "more"))) = ("y", None).
Proof. vm_compute. reflexivity. Qed.

Example Scanln_two_words :
  fst (fmt_Scanln EmptyString (typed ("y es" +:+ nl)))
  = ("y", Some (errors_New "expected newline")).
Proof. vm_compute. reflexivity. Qed.

Example Scanln_no_newline_at_end : fst (fmt_Scanln EmptyString (typed "yes")) = ("yes", None).
Proof. vm_compute. reflexivity. Qed.

Example Scanln_read_error :
  fst (fmt_Scanln EmptyString {| pending := []; at_end := Some (errors_New "input/output error") |})
  = (EmptyString, Some (errors_New "input/output error")).
Proof. reflexivity. Qed.

Example EncodeRune_examples :
  map byte_val (list_ascii_of_string (string_of_runes [233; 8364; 128512]))
  = [195; 169; 226; 130; 172; 240; 159; 152; 128].
Proof. vm_compute. reflexivity. Qed.

(** ** strconv.Atoi against the decimal literals *)

Lemma digit_of_digit (c : ascii) :
  is_digit c = true -> digit_of c = Some (byte_val c - 48).
Proof.
  unfold is_digit, digit_of. intros Hd. cbv zeta. rewrite Hd. reflexivity.
Qed.

Lemma digit_of_other (c : ascii) (v : Z) :
  is_digit c = false -> digit_of c = Some v -> 10 <= v.
Proof.
  unfold is_digit, digit_of. cbv zeta. intros Hd. rewrite Hd.
  destruct ((97 <=? byte_val c) && (byte_val c <=? 122)) eqn:E1.
  - intros [= <-]. lia.
  - destruct ((65 <=? byte_val c) && (byte_val c <=? 90)) eqn:E2; [|discriminate].
    intros [= <-]. lia.
Qed.

Lemma decimal_value_mono (s : string) :
  forall n, all_digits s = true -> 0 <= n -> n <= decimal_value s n.
Proof.
  induction s as [|c s IH]; intros n Hd Hn; simpl in *.
  - lia.
  - apply andb_prop in Hd as [Hc Hs]. unfold is_digit in Hc.
    apply andb_prop in Hc as [H1 H2].
    specialize (IH (n * 10 + (byte_val c - 48)) Hs). lia.
Qed.

(** The digit loop of ParseUint: it returns the value of an all-digit
    text that fits 64 bits, a range error when the value does not fit,
    and some error when a byte is not a digit. *)
Lemma ParseUint_loop_spec (s : string) :
  forall n, 0 <= n <= maxUint64 ->
    (all_digits s = true /\ decimal_value s n <= maxUint64 /\
     ParseUint_loop 10 cutoff10 maxUint64 s n = (decimal_value s n, None))
    \/ (all_digits s = true /\ maxUint64 < decimal_value s n /\
        ParseUint_loop 10 cutoff10 maxUint64 s n = (maxUint64, Some ErrRange))
    \/ (all_digits s = false /\
        exists v e, ParseUint_loop 10 cutoff10 maxUint64 s n = (v, Some e)
                    /\ (e = ErrSyntax \/ (e = ErrRange /\ v = maxUint64))).
Proof.
  induction s as [|c s IH]; intros n Hn.
  - left. simpl. repeat split; lia.
  - cbn [ParseUint_loop all_digits decimal_value].
    destruct (is_digit c) eqn:Hc.
    + rewrite (digit_of_digit c Hc).
      assert (Hv : 0 <= byte_val c - 48 <= 9).
      { unfold is_digit in Hc. apply andb_prop in Hc as [H1 H2]. lia. }
      set (v := byte_val c - 48) in *.
      destruct (v >=? 10) eqn:Hv10; [lia|].
      assert (Hover : maxUint64 < n * 10 + v ->
                (all_digits s = true /\ maxUint64 < decimal_value s (n * 10 + v))
                \/ all_digits s = false).
      { intros Hlt. destruct (all_digits s) eqn:Hs; [left|right; reflexivity].
        split; [reflexivity|].
        pose proof (decimal_value_mono s (n * 10 + v) Hs). lia. }
      unfold maxUint64, cutoff10 in *.
      destruct (n >=? 1844674407370955162) eqn:Hcut.
      * assert (Hlt0 : 2 ^ 64 - 1 < n * 10 + v) by lia.
        destruct (Hover Hlt0) as [[Hs Hlt]|Hs].
        -- right; left. rewrite Hs. auto.
        -- right; right. rewrite Hs. eauto 10.
      * cbv zeta. unfold uint64.
        rewrite (Z.mod_small (n * 10)) by lia.
        destruct (Z_le_gt_dec (n * 10 + v) (2 ^ 64 - 1)) as [Hfit|Hwrap].
        -- rewrite (Z.mod_small (n * 10 + v)) by lia.
           destruct ((n * 10 + v <? n * 10) || (n * 10 + v >? 2 ^ 64 - 1)) eqn:Hchk.
           { apply orb_prop in Hchk as [Hchk|Hchk]; lia. }
           simpl. destruct (IH (n * 10 + v)) as [H1|[H1|H1]]; [lia| | |]; auto.
        -- assert (Hmod : (n * 10 + v) mod 2 ^ 64 = n * 10 + v - 2 ^ 64).
           { symmetry. apply (Z.mod_unique _ _ 1); lia. }
           rewrite Hmod.
           assert (Hchk : (n * 10 + v - 2 ^ 64 <? n * 10)
                          || (n * 10 + v - 2 ^ 64 >? 2 ^ 64 - 1) = true).
           { apply orb_true_intro. left. lia. }
           rewrite Hchk.
           assert (Hlt0 : 2 ^ 64 - 1 < n * 10 + v) by lia.
           destruct (Hover Hlt0) as [[Hs Hlt]|Hs].
           ++ right; left. rewrite Hs. auto.
           ++ right; right. rewrite Hs. eauto 10.
    + right; right. split; [reflexivity|].
      destruct (digit_of c) as [v|] eqn:Hdig; [|eauto].
      pose proof (digit_of_other c v Hc Hdig).
      destruct (v >=? 10) eqn:Hv10; [eauto|lia].
Qed.

(** [ParseUint] in base 10 and 64 bits is its digit loop. *)
Lemma ParseUint_10_64 (s : string) :
  s <> EmptyString ->
  ParseUint s 10 64 =
    match ParseUint_loop 10 cutoff10 maxUint64 s 0 with
    | (n, None) => (n, None)
    | (n, Some e) => (n, Some (NumError "ParseUint" s e))
    end.
Proof.
  intros Hs. unfold ParseUint. destruct s as [|c s]; [congruence|]. reflexivity.
Qed.

Lemma ParseInt_range_value (s0 : string) (neg : bool) (un : Z) :
  0 <= un <= maxUint64 ->
  ParseInt_range s0 neg 64 (un, None) =
    if neg then
      if un <=? 2 ^ 63 then (- un, None)
      else (- 2 ^ 63, Some (NumError "ParseInt" s0 ErrRange))
    else
      if un <? 2 ^ 63 then (un, None)
      else (2 ^ 63 - 1, Some (NumError "ParseInt" s0 ErrRange)).
Proof.
  intros Hun. unfold ParseInt_range, maxUint64 in *. cbv zeta iota beta.
  change (uint64 (1 ≪ (64 - 1))) with (2 ^ 63).
  change (int64 (2 ^ 63 - 1)) with (2 ^ 63 - 1).
  change (int64 (- int64 (2 ^ 63))) with (- 2 ^ 63).
  destruct neg; simpl negb; simpl andb.
  - destruct (un >? 2 ^ 63) eqn:E1; destruct (un <=? 2 ^ 63) eqn:E2; try lia; try reflexivity.
    f_equal. unfold int64.
    destruct (Z.eq_dec un (2 ^ 63)) as [->|Hne]; [reflexivity|].
    rewrite (Z.mod_small (un + 2 ^ 63)) by lia.
    replace (un + 2 ^ 63 - 2 ^ 63) with un by lia.
    destruct (Z.eq_dec un 0) as [->|Hne0]; [reflexivity|].
    rewrite (Z.mod_small (- un + 2 ^ 63)) by lia. lia.
  - destruct (un >=? 2 ^ 63) eqn:E1; destruct (un <? 2 ^ 63) eqn:E2; try lia; try reflexivity.
    f_equal. unfold int64. rewrite (Z.mod_small (un + 2 ^ 63)) by lia. lia.
Qed.

Lemma ParseInt_range_error (s0 f b : string) (neg : bool) (v : Z) (e : error) :
  e = ErrSyntax \/ (e = ErrRange /\ v = maxUint64) ->
  exists z e', ParseInt_range s0 neg 64 (v, Some (NumError f b e)) = (z, Some e').
Proof.
  intros [->|[-> ->]].
  - unfold ParseInt_range. simpl. eauto.
  - destruct neg; vm_compute; eauto.
Qed.

Lemma ParseUint_cases (body : string) :
  body <> EmptyString ->
  (all_digits body = true /\ decimal_value body 0 <= maxUint64 /\
   ParseUint body 10 64 = (decimal_value body 0, None))
  \/ ((all_digits body = false \/ maxUint64 < decimal_value body 0) /\
      exists v e, ParseUint body 10 64 = (v, Some (NumError "ParseUint" body e))
                  /\ (e = ErrSyntax \/ (e = ErrRange /\ v = maxUint64))).
Proof.
  intros Hne. rewrite (ParseUint_10_64 body Hne).
  destruct (ParseUint_loop_spec body 0) as [(Hd & Hv & ->)|[(Hd & Hv & ->)|(Hd & v & e & -> & He)]].
  - unfold maxUint64. lia.
  - left. auto.
  - right. split; [right; exact Hv|]. exists maxUint64, ErrRange. auto.
  - right. split; [left; exact Hd|]. exists v, e. auto.
Qed.

Lemma sign_not_digit (c : ascii) :
  (Ascii.eqb c "+" || Ascii.eqb c "-") = true -> is_digit c = false.
Proof.
  intros Hc. apply orb_prop in Hc as [Hc|Hc]; apply Ascii.eqb_eq in Hc; subst; reflexivity.
Qed.

Lemma Atoi_unfold (c0 : ascii) (rest : string) :
  strconv_Atoi (String c0 rest) =
    ParseInt_range (String c0 rest) (Ascii.eqb c0 "-") 64
      (ParseUint (if Ascii.eqb c0 "+" || Ascii.eqb c0 "-" then rest else String c0 rest) 10 64).
Proof. reflexivity. Qed.

Lemma Atoi_empty_body (s0 : string) (neg : bool) :
  exists z e, ParseInt_range s0 neg 64 (ParseUint EmptyString 10 64) = (z, Some e).
Proof. destruct neg; vm_compute; eauto. Qed.

(** [strconv.Atoi] accepts exactly the valid integers, with their value. *)
Lemma Atoi_sound (s : string) (z : Z) :
  strconv_Atoi s = (z, None) -> int_literal s z.
Proof.
  destruct s as [|c0 rest]; [discriminate|].
  rewrite Atoi_unfold.
  set (body := if Ascii.eqb c0 "+" || Ascii.eqb c0 "-" then rest else String c0 rest).
  destruct (string_dec body EmptyString) as [Hb|Hb].
  { rewrite Hb. destruct (Atoi_empty_body (String c0 rest) (Ascii.eqb c0 "-")) as (z' & e & ->).
    discriminate. }
  destruct (ParseUint_cases body Hb) as [(Hd & Hv & ->)|(_ & v & e & -> & He)].
  - assert (H0 : 0 <= decimal_value body 0) by (apply decimal_value_mono; [exact Hd|lia]).
    rewrite ParseInt_range_value by lia.
    subst body.
    destruct (Ascii.eqb c0 "-") eqn:Hminus.
    + apply Ascii.eqb_eq in Hminus. subst c0. simpl in *.
      destruct (decimal_value rest 0 <=? 2 ^ 63) eqn:Hr; [|discriminate].
      intros [= <-]. apply int_minus; [exact Hb|exact Hd|lia].
    + rewrite orb_false_r in *.
      destruct (Ascii.eqb c0 "+") eqn:Hplus.
      * apply Ascii.eqb_eq in Hplus. subst c0.
        destruct (decimal_value rest 0 <? 2 ^ 63) eqn:Hr; [|discriminate].
        intros [= <-]. apply int_plus; [exact Hb|exact Hd|lia].
      * destruct (decimal_value (String c0 rest) 0 <? 2 ^ 63) eqn:Hr; [|discriminate].
        intros [= <-]. apply int_unsigned; [exact Hb|exact Hd|lia].
  - destruct (ParseInt_range_error (String c0 rest) "ParseUint" body (Ascii.eqb c0 "-") v e He)
      as (z' & e' & ->).
    discriminate.
Qed.

Lemma Atoi_complete (s : string) (z : Z) :
  int_literal s z -> strconv_Atoi s = (z, None).
Proof.
  intros Hl.
  assert (Hbody : forall body, body <> EmptyString -> all_digits body = true ->
            decimal_value body 0 <= 2 ^ 63 ->
            ParseUint body 10 64 = (decimal_value body 0, None)
            /\ 0 <= decimal_value body 0 <= maxUint64).
  { intros body Hb Hd Hv.
    assert (H0 : 0 <= decimal_value body 0) by (apply decimal_value_mono; [exact Hd|lia]).
    destruct (ParseUint_cases body Hb) as [(_ & Hm & ->)|([Hx|Hx] & _)].
    - auto.
    - congruence.
    - unfold maxUint64 in Hx. lia. }
  destruct Hl as [body Hb Hd Hv|body Hb Hd Hv|body Hb Hd Hv].
  - destruct body as [|c0 rest]; [congruence|].
    rewrite Atoi_unfold.
    assert (Hc : is_digit c0 = true) by (simpl in Hd; apply andb_prop in Hd; tauto).
    destruct (Ascii.eqb c0 "+" || Ascii.eqb c0 "-") eqn:Hsign.
    { apply sign_not_digit in Hsign. congruence. }
    apply orb_false_elim in Hsign as [_ ->].
    destruct (Hbody (String c0 rest) Hb Hd) as [-> Hr]; [lia|].
    rewrite ParseInt_range_value by exact Hr.
    destruct (decimal_value (String c0 rest) 0 <? 2 ^ 63) eqn:E; [reflexivity|lia].
  - rewrite Atoi_unfold. simpl orb. cbv iota.
    destruct (Hbody body Hb Hd) as [-> Hr]; [lia|].
    rewrite ParseInt_range_value by exact Hr.
    change (Ascii.eqb "+" "-") with false. cbv iota.
    destruct (decimal_value body 0 <? 2 ^ 63) eqn:E; [reflexivity|lia].
  - rewrite Atoi_unfold. simpl orb. cbv iota.
    destruct (Hbody body Hb Hd Hv) as [-> Hr].
    rewrite ParseInt_range_value by exact Hr.
    change (Ascii.eqb "-" "-") with true. cbv iota.
    destruct (decimal_value body 0 <=? 2 ^ 63) eqn:E; [reflexivity|lia].
Qed.

(** ** strings.SplitN on the tokens *)

Lemma HasPrefix_eq (s : string) :
  strings_HasPrefix s "=" = match s with String c _ => Ascii.eqb c "=" | EmptyString => false end.
Proof. destruct s as [|c s]; [reflexivity|]. simpl. apply andb_true_r. Qed.

Lemma Index_no_sep (tok : string) :
  contains_byte "=" tok = false -> strings_Index tok "=" = None.
Proof.
  induction tok as [|c tok IH]; intros Hc.
  - reflexivity.
  - simpl in Hc. apply orb_false_elim in Hc as [Hc Ht].
    cbn [strings_Index]. rewrite HasPrefix_eq, Hc, (IH Ht). reflexivity.
Qed.

Lemma Index_sep (name cnt : string) :
  contains_byte "=" name = false ->
  strings_Index (name +:+ "=" +:+ cnt) "=" = Some (String.length name).
Proof.
  induction name as [|c name IH]; intros Hc.
  - reflexivity.
  - simpl in Hc. apply orb_false_elim in Hc as [Hc Ht].
    change (String c name +:+ "=" +:+ cnt) with (String c (name +:+ "=" +:+ cnt)).
    cbn [strings_Index String.length]. rewrite HasPrefix_eq, Hc, (IH Ht). reflexivity.
Qed.

Lemma string_take_app (name rest : string) :
  string_take (String.length name) (name +:+ rest) = name.
Proof.
  induction name as [|c name IH].
  - destruct rest; reflexivity.
  - change (String c name +:+ rest) with (String c (name +:+ rest)).
    simpl. f_equal. exact IH.
Qed.

Lemma string_drop_app (name sep rest : string) :
  string_drop (String.length name + String.length sep) (name +:+ sep +:+ rest) = rest.
Proof.
  induction name as [|c name IH].
  - change (EmptyString +:+ sep +:+ rest) with (sep +:+ rest).
    induction sep as [|d sep IHs]; [reflexivity|].
    change (String d sep +:+ rest) with (String d (sep +:+ rest)). exact IHs.
  - change (String c name +:+ sep +:+ rest) with (String c (name +:+ sep +:+ rest)).
    exact IH.
Qed.

Lemma SplitN_no_sep (tok : string) :
  contains_byte "=" tok = false -> strings_SplitN tok "=" 2 = [tok].
Proof.
  intros Hc. unfold strings_SplitN. cbn [genSplit]. rewrite (Index_no_sep tok Hc). reflexivity.
Qed.

Lemma SplitN_sep (name cnt : string) :
  contains_byte "=" name = false ->
  strings_SplitN (name +:+ "=" +:+ cnt) "=" 2 = [name; cnt].
Proof.
  intros Hc. unfold strings_SplitN. cbn [genSplit]. rewrite (Index_sep name cnt Hc).
  rewrite string_take_app, string_drop_app. reflexivity.
Qed.

Lemma first_sep (tok : string) :
  contains_byte "=" tok = false
  \/ exists name cnt, tok = name +:+ "=" +:+ cnt /\ contains_byte "=" name = false.
Proof.
  induction tok as [|c tok IH].
  - left. reflexivity.
  - destruct (Ascii.eqb c "=") eqn:Hc.
    + right. apply Ascii.eqb_eq in Hc. subst c. exists EmptyString, tok. split; reflexivity.
    + destruct IH as [IH|(name & cnt & -> & Hn)].
      * left. simpl. rewrite Hc, IH. reflexivity.
      * right. exists (String c name), cnt. split; [reflexivity|]. simpl. rewrite Hc, Hn. reflexivity.
Qed.

Lemma token_cases (tok : string) :
  malformed tok \/ exists name z, scale_token tok name z.
Proof.
  destruct (first_sep tok) as [Hno|(name & cnt & -> & Hn)].
  - left. left. exact Hno.
  - destruct (strconv_Atoi cnt) as [z [e|]] eqn:Ha.
    + left. right. exists name, cnt. repeat split; [exact Hn|].
      intros z' Hl. apply Atoi_complete in Hl. congruence.
    + right. exists name, z. constructor; [exact Hn|]. apply Atoi_sound. exact Ha.
Qed.

Lemma scale_loop_token (arg name : string) (z : Z) (rest : list string) (m : gmap string Z) :
  scale_token arg name z ->
  scale_loop (arg :: rest) m = scale_loop rest (<[name := z]> m).
Proof.
  intros [n cnt z' Hn Hl]. cbn [scale_loop].
  rewrite (SplitN_sep n cnt Hn), (Atoi_complete cnt z' Hl). reflexivity.
Qed.

Lemma scale_loop_malformed (arg : string) (rest : list string) (m : gmap string Z) :
  malformed arg ->
  exists format a, scale_loop (arg :: rest) m = inr (Fatalf format a).
Proof.
  intros [Hno|(name & cnt & -> & Hn & Hbad)]; cbn [scale_loop].
  - rewrite (SplitN_no_sep arg Hno). eauto.
  - rewrite (SplitN_sep name cnt Hn).
    destruct (strconv_Atoi cnt) as [z [e|]] eqn:Ha; [eauto|].
    apply Atoi_sound in Ha. destruct (Hbad z Ha).
Qed.

Lemma scale_loop_fatal (args : list string) :
  forall m : gmap string Z,
    Exists malformed args -> exists format a, scale_loop args m = inr (Fatalf format a).
Proof.
  induction args as [|arg rest IH]; intros m Hex.
  - inversion Hex.
  - destruct (token_cases arg) as [Hbad|(name & z & Htok)].
    + apply scale_loop_malformed. exact Hbad.
    + rewrite (scale_loop_token arg name z rest m Htok). apply IH.
      inversion Hex as [? ? Hhead|? ? Htail]; subst; [|exact Htail].
      exfalso. destruct Htok as [n cnt z Hn Hl].
      destruct Hhead as [Hno|(n' & cnt' & Heq & Hn' & Hbad)].
      * pose proof (SplitN_no_sep _ Hno) as E. rewrite (SplitN_sep n cnt Hn) in E. discriminate.
      * pose proof (SplitN_sep n cnt Hn) as E. rewrite Heq, (SplitN_sep n' cnt' Hn') in E.
        injection E as -> ->. exact (Hbad z Hl).
Qed.

Lemma int_literal_range (s : string) (z : Z) :
  int_literal s z -> - 2 ^ 63 <= z <= 2 ^ 63 - 1.
Proof.
  intros [body Hb Hd Hv|body Hb Hd Hv|body Hb Hd Hv];
    pose proof (decimal_value_mono body 0 Hd); lia.
Qed.

Lemma scale_loop_lookup (args : list string) (pairs : list (string * Z)) :
  Forall2 (fun arg nz => scale_token arg (fst nz) (snd nz)) args pairs ->
  forall m0 : gmap string Z,
  exists m, scale_loop args m0 = inl m
            /\ forall name, m !! name = match last_count name pairs with
                                        | Some z => Some z
                                        | None => m0 !! name
                                        end.
Proof.
  induction 1 as [|arg [n z] rest pairs Htok _ IH]; intros m0.
  - exists m0. split; reflexivity.
  - simpl in Htok. rewrite (scale_loop_token arg n z rest m0 Htok).
    destruct (IH (<[n := z]> m0)) as (m & -> & Hm).
    exists m. split; [reflexivity|]. intros name. rewrite Hm. cbn [last_count].
    destruct (last_count name pairs) as [z'|]; [reflexivity|].
    rewrite lookup_insert. destruct (String.eqb_spec n name) as [->|Hne].
    + rewrite decide_True by reflexivity. reflexivity.
    + rewrite decide_False by exact Hne. reflexivity.
Qed.

Lemma scale_loop_origin (args : list string) :
  forall (m0 m : gmap string Z),
    scale_loop args m0 = inl m ->
    forall name z, m !! name = Some z ->
      m0 !! name = Some z \/ exists arg, In arg args /\ scale_token arg name z.
Proof.
  induction args as [|arg rest IH]; intros m0 m Hloop name z Hz.
  - injection Hloop as <-. left. exact Hz.
  - destruct (token_cases arg) as [Hbad|(n & z' & Htok)].
    + destruct (scale_loop_malformed arg rest m0 Hbad) as (f & a & E). congruence.
    + rewrite (scale_loop_token arg n z' rest m0 Htok) in Hloop.
      destruct (IH _ _ Hloop name z Hz) as [Hin|(arg' & Hin & Htok')].
      * rewrite lookup_insert in Hin. destruct (decide (n = name)) as [->|Hne].
        -- injection Hin as <-. right. exists arg. split; [left; reflexivity|exact Htok].
        -- left. exact Hin.
      * right. exists arg'. split; [right; exact Hin|exact Htok'].
Qed.

(** ** The scale handler *)

Section ScaleClaims.
Context {P : Type} `{project.APIProject P}.

(** C3: when a positional argument of the scale handler is malformed (a
    token with no [=] separator, or a count that is not a valid
    integer), the handler ends in the fatal exit of its validation
    ([logrus.Fatalf]) and leaves the world as it found it: the scale
    operation of the Project Handle is never invoked. *)
Theorem scale_malformed_is_fatal (c : cli.Context) (w : World P) :
  Exists malformed (cli.Args c) ->
  exists format a, ProjectScale c w = (inr (Fatalf format a), w).
Proof.
  intros Hex. destruct (scale_loop_fatal (cli.Args c) ∅ Hex) as (format & a & E).
  exists format, a. unfold ProjectScale. rewrite E. reflexivity.
Qed.

Lemma ProjectScale_accepted (c : cli.Context) (w : World P) (m : gmap string Z) :
  scale_loop (cli.Args c) ∅ = inl m ->
  ProjectScale c w =
    (match fst (project.Scale (cli.Int c "timeout") m (proj w)) with
     | Some e => inr (Fatal [AErr e])
     | None => inl tt
     end,
     {| proj := snd (project.Scale (cli.Int c "timeout") m (proj w));
        calls := calls w ++ [(OpScale (cli.Int c "timeout") m,
                              fst (project.Scale (cli.Int c "timeout") m (proj w)))];
        stdout := stdout w; stdin := stdin w |}).
Proof.
  intros E. unfold ProjectScale. rewrite E. unfold bind, call.
  destruct (project.Scale (cli.Int c "timeout") m (proj w)) as [[e|] p']; reflexivity.
Qed.

(** C7: for positional arguments that are all well-formed [name=count]
    tokens, the map the scale handler passes to the scale operation maps
    every service name to the count of the last token that bears the
    name, however many earlier tokens used it (and has no other names). *)
Theorem scale_last_wins (c : cli.Context) (w : World P) (pairs : list (string * Z)) :
  Forall2 (fun arg nz => scale_token arg (fst nz) (snd nz)) (cli.Args c) pairs ->
  exists m : gmap string Z,
    (forall name, m !! name = last_count name pairs)
    /\ calls (snd (ProjectScale c w)) =
         calls w ++ [(OpScale (cli.Int c "timeout") m,
                      fst (project.Scale (cli.Int c "timeout") m (proj w)))].
Proof.
  intros Htoks. destruct (scale_loop_lookup _ _ Htoks ∅) as (m & E & Hm).
  exists m. split.
  - intros name. rewrite Hm. destruct (last_count name pairs); [reflexivity|apply lookup_empty].
  - rewrite (ProjectScale_accepted c w m E). reflexivity.
Qed.

(** C8 (amended): when the scale handler reaches the scale call, every
    count in the map it passes is the value of the count text of one of
    the tokens, an integer of the range of [int]; it may be negative. *)
Theorem scale_counts_are_ints (c : cli.Context) (w : World P) (t : Z) (m : gmap string Z)
    (err : option error) :
  calls (snd (ProjectScale c w)) = calls w ++ [(OpScale t m, err)] ->
  forall name z, m !! name = Some z ->
    - 2 ^ 63 <= z <= 2 ^ 63 - 1
    /\ exists arg, In arg (cli.Args c) /\ scale_token arg name z.
Proof.
  intros Hcalls name z Hz.
  destruct (scale_loop (cli.Args c) ∅) as [m'|ab] eqn:E.
  - rewrite (ProjectScale_accepted c w m' E) in Hcalls. cbn [snd calls] in Hcalls.
    apply app_inv_head in Hcalls. injection Hcalls as _ <- _.
    destruct (scale_loop_origin _ _ _ E name z Hz) as [He|(arg & Harg & Htok)].
    + rewrite lookup_empty in He. discriminate.
    + split; [|eauto]. destruct Htok as [n cnt z Hn Hl]. exact (int_literal_range cnt z Hl).
  - unfold ProjectScale in Hcalls. rewrite E in Hcalls. cbn [abort snd] in Hcalls.
    apply (f_equal (@length _)) in Hcalls. rewrite length_app in Hcalls.
    cbn [length] in Hcalls. lia.
Qed.

(** C10: with no positional argument the scale handler fails no
    validation and invokes the scale operation exactly once, with the
    empty map and the timeout flag; it returns normally unless the
    operation itself reports an error. *)
Theorem scale_no_arguments (c : cli.Context) (w : World P) :
  cli.Args c = [] ->
  ProjectScale c w =
    (match fst (project.Scale (cli.Int c "timeout") ∅ (proj w)) with
     | Some e => inr (Fatal [AErr e])
     | None => inl tt
     end,
     {| proj := snd (project.Scale (cli.Int c "timeout") ∅ (proj w));
        calls := calls w ++ [(OpScale (cli.Int c "timeout") ∅,
                              fst (project.Scale (cli.Int c "timeout") ∅ (proj w)))];
        stdout := stdout w; stdin := stdin w |}).
Proof.
  intros Hargs. apply ProjectScale_accepted. rewrite Hargs. reflexivity.
Qed.
End ScaleClaims.

(** The scale handler on [web=3 db]: the second token has no separator. *)
Lemma scale_malformed_is_fatal_witness :
  Exists malformed (cli.Args (context ["web=3"; "db"] false 10))
  /\ exists format a,
       ProjectScale (context ["web=3"; "db"] false 10) (fresh (mock []) (typed EmptyString))
       = (inr (Fatalf format a), fresh (mock []) (typed EmptyString)).
Proof.
  assert (Hex : Exists malformed (cli.Args (context ["web=3"; "db"] false 10))).
  { apply Exists_cons_tl, Exists_cons_hd. left. reflexivity. }
  split; [exact Hex|].
  apply (scale_malformed_is_fatal (context ["web=3"; "db"] false 10)
           (fresh (mock []) (typed EmptyString)) Hex).
Defined.

(** The scale handler on [web=3 db=1 web=5]. *)
Lemma scale_last_wins_witness :
  Forall2 (fun arg nz => scale_token arg (fst nz) (snd nz))
    (cli.Args (context ["web=3"; "db=1"; "web=5"] false 10))
    [("web", 3); ("db", 1); ("web", 5)]
  /\ exists m : gmap string Z,
       (forall name, m !! name = last_count name [("web", 3); ("db", 1); ("web", 5)])
       /\ calls (snd (ProjectScale (context ["web=3"; "db=1"; "web=5"] false 10)
                        (fresh (mock []) (typed EmptyString))))
          = [] ++ [(OpScale 10 m, None)].
Proof.
  assert (Htoks : Forall2 (fun arg nz => scale_token arg (fst nz) (snd nz))
                    (cli.Args (context ["web=3"; "db=1"; "web=5"] false 10))
                    [("web", 3); ("db", 1); ("web", 5)]).
  { constructor; [|constructor; [|constructor; [|constructor]]].
    - apply (scale_token_intro "web" "3" 3); [reflexivity|].
      apply (int_unsigned "3"); [discriminate|reflexivity|apply Z.leb_le; reflexivity].
    - apply (scale_token_intro "db" "1" 1); [reflexivity|].
      apply (int_unsigned "1"); [discriminate|reflexivity|apply Z.leb_le; reflexivity].
    - apply (scale_token_intro "web" "5" 5); [reflexivity|].
      apply (int_unsigned "5"); [discriminate|reflexivity|apply Z.leb_le; reflexivity]. }
  split; [exact Htoks|].
  exact (scale_last_wins (context ["web=3"; "db=1"; "web=5"] false 10)
           (fresh (mock []) (typed EmptyString)) _ Htoks).
Defined.

(** C8, counterexample: the token [web=-1] passes the validation and the
    scale operation is called with the count [-1] for [web], which is
    not a non-negative integer. *)
Lemma scale_negative_count :
  ProjectScale (context ["web=-1"] false 10) (fresh (mock []) (typed EmptyString))
  = (inl tt, {| proj := tick (mock []);
                calls := [(OpScale 10 {[ "web" := -1 ]}, None)];
                stdout := []; stdin := typed EmptyString |})
  /\ ({[ "web" := -1 ]} : gmap string Z) !! "web" = Some (-1)
  /\ ~ (0 <= -1).
Proof.
  split; [vm_compute; reflexivity|]. split; [apply lookup_singleton_eq|lia].
Qed.

(** The scale handler on [web=-1]. *)
Lemma scale_counts_are_ints_witness :
  calls (snd (ProjectScale (context ["web=-1"] false 10)
                (fresh (mock []) (typed EmptyString))))
  = calls (fresh (mock []) (typed EmptyString)) ++ [(OpScale 10 {[ "web" := -1 ]}, None)]
  /\ ({[ "web" := -1 ]} : gmap string Z) !! "web" = Some (-1)
  /\ (- 2 ^ 63 <= -1 <= 2 ^ 63 - 1
      /\ exists arg, In arg (cli.Args (context ["web=-1"] false 10))
                     /\ scale_token arg "web" (-1)).
Proof.
  assert (Hcalls : calls (snd (ProjectScale (context ["web=-1"] false 10)
                                (fresh (mock []) (typed EmptyString))))
                   = calls (fresh (mock []) (typed EmptyString))
                     ++ [(OpScale 10 {[ "web" := -1 ]}, None)])
    by (vm_compute; reflexivity).
  assert (Hz : ({[ "web" := -1 ]} : gmap string Z) !! "web" = Some (-1))
    by apply lookup_singleton_eq.
  split; [exact Hcalls|]. split; [exact Hz|].
  exact (scale_counts_are_ints (context ["web=-1"] false 10)
           (fresh (mock []) (typed EmptyString)) 10 {[ "web" := -1 ]} None Hcalls "web" (-1) Hz).
Defined.

(** The scale handler without arguments and with the timeout 30. *)
Lemma scale_no_arguments_witness :
  cli.Args (context [] false 30) = []
  /\ ProjectScale (context [] false 30) (fresh (mock []) (typed EmptyString))
     = (inl tt, {| proj := tick (mock []); calls := [] ++ [(OpScale 30 ∅, None)];
                   stdout := []; stdin := typed EmptyString |}).
Proof.
  split; [reflexivity|].
  exact (scale_no_arguments (context [] false 30) (fresh (mock []) (typed EmptyString))
           eq_refl).
Defined.

(** ** fmt.Scanln on lines *)

Lemma Scanln_empty_line (answer0 : string) (rest : list rune) (tail : option error) :
  fst (fmt_Scanln answer0 {| pending := 10 :: rest; at_end := tail |})
  = (answer0, Some (errors_New "unexpected newline")).
Proof. destruct rest; reflexivity. Qed.

Lemma Scanln_end_of_input (answer0 : string) (tail : option error) :
  fst (fmt_Scanln answer0 {| pending := []; at_end := tail |})
  = (answer0, Some (match tail with None => io_EOF | Some e => e end)).
Proof. destruct tail; reflexivity. Qed.

Lemma not_space_not_newline (r : rune) :
  isSpace r = false -> (r =? 10) = false /\ (r =? 13) = false.
Proof.
  intros Hr. split.
  - destruct (Z.eqb_spec r 10) as [->|]; [discriminate|reflexivity].
  - destruct (Z.eqb_spec r 13) as [->|]; [discriminate|reflexivity].
Qed.

Lemma SkipSpace_word (tail : option error) (r : rune) (rest : list rune) :
  isSpace r = false -> SkipSpace tail (r :: rest) = (inl tt, r :: rest).
Proof.
  intros Hr. destruct (not_space_not_newline r Hr) as [H10 H13].
  cbn [SkipSpace]. rewrite H13, H10, Hr. reflexivity.
Qed.

Lemma token_word (tail : option error) (word rest : list rune) :
  forallb (fun r => negb (isSpace r)) word = true ->
  token_notSpace tail (word ++ 10 :: rest) = (inl word, 10 :: rest).
Proof.
  induction word as [|r word IH]; intros Hw.
  - reflexivity.
  - simpl in Hw. apply andb_prop in Hw as [Hr Hword].
    apply negb_true_iff in Hr.
    change ((r :: word) ++ 10 :: rest) with (r :: (word ++ 10 :: rest)).
    cbn [token_notSpace]. rewrite Hr, (IH Hword). reflexivity.
Qed.

Lemma Scanln_word (answer0 : string) (word rest : list rune) (tail : option error) :
  word <> [] ->
  forallb (fun r => negb (isSpace r)) word = true ->
  fmt_Scanln answer0 {| pending := word ++ 10 :: rest; at_end := tail |}
  = ((string_of_runes word, None), {| pending := rest; at_end := tail |}).
Proof.
  intros Hne Hw. destruct word as [|r word]; [congruence|].
  pose proof (token_word tail (r :: word) rest Hw) as Htok.
  simpl in Hw. apply andb_prop in Hw as [Hr Hword]. apply negb_true_iff in Hr.
  change ((r :: word) ++ 10 :: rest) with (r :: (word ++ 10 :: rest)) in *.
  unfold fmt_Scanln, convertString. cbn [pending at_end].
  rewrite !(SkipSpace_word tail r _ Hr), Htok.
  cbn [expect_newline]. reflexivity.
Qed.

(** ** The sequential handlers *)

Section SequentialClaims.
Context {P : Type} `{project.APIProject P}.

(** C5: when the query for stopped containers succeeds with an empty
    sequence, the delete handler prints [No stopped containers] and
    returns normally; the only call it makes is the query, so the delete
    operation is not invoked. The context, and with it the force flag,
    is arbitrary. *)
Theorem delete_nothing_stopped (c : cli.Context) (w : World P) (p' : P) :
  project.ListStoppedContainers (cli.Args c) (proj w) = (([], None), p') ->
  ProjectDelete c w =
    (inl tt,
     {| proj := p';
        calls := calls w ++ [(OpListStoppedContainers (cli.Args c), None)];
        stdout := stdout w ++ ["No stopped containers" +:+ nl];
        stdin := stdin w |}).
Proof.
  intros Hlist. unfold ProjectDelete, bind, call. rewrite Hlist. reflexivity.
Qed.

(** The confirmation of the delete handler without the force flag, path
    by path as the code runs it: with a scanned answer other than [y] or
    [Y] the handler returns normally without invoking the delete
    operation, with [y] or [Y] it invokes delete, and an error of
    [fmt.Scanln] takes the fatal exit of line 220 without invoking
    delete. (That this exit also takes the empty line is the defect shown
    below.) *)
Theorem delete_confirmation (c : cli.Context) (w : World P)
    (stopped : list string) (p' : P) :
  project.ListStoppedContainers (cli.Args c) (proj w) = ((stopped, None), p') ->
  stopped <> [] ->
  cli.Bool c "force" = false ->
  let listed := calls w ++ [(OpListStoppedContainers (cli.Args c), None)] in
  let options := {| options.RemoveVolume := cli.Bool c "v" |} in
  let r := ProjectDelete c w in
  match fst (fmt_Scanln EmptyString (stdin w)) with
  | (_, Some e) => fst r = inr (Fatal [AErr e]) /\ calls (snd r) = listed
  | (answer, None) =>
      if String.eqb answer "y" || String.eqb answer "Y"
      then fst r = match fst (project.Delete options (cli.Args c) p') with
                   | Some e => inr (Fatal [AErr e])
                   | None => inl tt
                   end
           /\ calls (snd r) =
                listed ++ [(OpDelete options (cli.Args c),
                            fst (project.Delete options (cli.Args c) p'))]
      else fst r = inl tt /\ calls (snd r) = listed
  end.
Proof.
  intros Hlist Hne Hforce. cbv zeta.
  unfold ProjectDelete, bind, call. rewrite Hlist. cbn [fst snd].
  destruct stopped as [|s0 stopped]; [congruence|]. cbn [length Nat.eqb].
  rewrite Hforce. cbn [negb]. unfold os_Stdout_Write, Scanln. cbn [stdin proj calls stdout].
  destruct (fmt_Scanln EmptyString (stdin w)) as [[answer [e|]] i'] eqn:Hscan; cbn [fst snd].
  - split; reflexivity.
  - destruct (String.eqb answer "y") eqn:Hy; cbn [negb andb orb].
    + unfold ret. cbn [proj calls].
      destruct (project.Delete _ _ p') as [[e|] p'']; split; reflexivity.
    + destruct (String.eqb answer "Y") eqn:HY; cbn [negb].
      * unfold ret. cbn [proj calls].
        destruct (project.Delete _ _ p') as [[e|] p'']; split; reflexivity.
      * split; reflexivity.
Qed.

(** C9 (amended): the start handler calls the start operation with the
    positional service names only; it is the restart handler that
    forwards the timeout of the context along with the names. *)
Theorem start_restart_calls (c : cli.Context) (w : World P) :
  calls (snd (ProjectStart c w)) =
    calls w ++ [(OpStart (cli.Args c), fst (project.Start (cli.Args c) (proj w)))]
  /\ calls (snd (ProjectRestart c w)) =
       calls w ++ [(OpRestart (cli.Int c "timeout") (cli.Args c),
                    fst (project.Restart (cli.Int c "timeout") (cli.Args c) (proj w)))].
Proof.
  split.
  - unfold ProjectStart, bind, call.
    destruct (project.Start (cli.Args c) (proj w)) as [[e|] p']; reflexivity.
  - unfold ProjectRestart, bind, call.
    destruct (project.Restart (cli.Int c "timeout") (cli.Args c) (proj w)) as [[e|] p'];
      reflexivity.
Qed.

(** C4: the run handler on a context without positional arguments: the
    guard of line 158 tests for exactly one argument, so it does not
    fire and the index expression of line 162 panics; with exactly one
    argument the guard gives the fatal exit [No service specified]. The
    run operation is invoked in neither case. *)
Theorem run_without_arguments (bools : string -> bool) (ints : string -> Z)
    (service : string) (w : World P) :
  ProjectRun {| cli.Bool := bools; cli.Int := ints; cli.Args := [] |} w
    = (inr (panic "runtime error: index out of range"), w)
  /\ ProjectRun {| cli.Bool := bools; cli.Int := ints; cli.Args := [service] |} w
    = (inr (Fatal [AStr "No service specified"]), w).
Proof. split; reflexivity. Qed.
End SequentialClaims.

(** The delete handler with the force flag on a project without stopped containers. *)
Lemma delete_nothing_stopped_witness :
  project.ListStoppedContainers (cli.Args (context ["web"] true 0))
    (proj (fresh (mock []) (typed EmptyString)))
  = (([], None), tick (mock []))
  /\ ProjectDelete (context ["web"] true 0) (fresh (mock []) (typed EmptyString))
     = (inl tt,
        {| proj := tick (mock []);
           calls := [] ++ [(OpListStoppedContainers ["web"], None)];
           stdout := [] ++ ["No stopped containers" +:+ nl];
           stdin := typed EmptyString |}).
Proof.
  split; [reflexivity|].
  exact (delete_nothing_stopped (context ["web"] true 0)
           (fresh (mock []) (typed EmptyString)) (tick (mock [])) eq_refl).
Defined.

(** C2: the code at the empty line. With one stopped container and no
    force flag the handler prints its prompt, whose [yN] makes No the
    answer of the empty line, and then ends in the fatal exit of line
    220 with [unexpected newline] instead of returning normally; a line
    of two words ends the same way with [expected newline]. Neither is a
    failure to read, and the delete operation is not invoked. *)
Lemma delete_empty_line_is_fatal :
  ProjectDelete (context [] false 0) (fresh (mock ["web_1"]) (typed nl))
  = (inr (Fatal [AErr (errors_New "unexpected newline")]),
     {| proj := tick (mock ["web_1"]);
        calls := [(OpListStoppedContainers [], None)];
        stdout := ["Going to remove web_1" +:+ nl +:+ "Are you sure? [yN]" +:+ nl];
        stdin := typed EmptyString |})
  /\ fst (ProjectDelete (context [] false 0)
            (fresh (mock ["web_1"]) (typed ("no thanks" +:+ nl))))
     = inr (Fatal [AErr (errors_New "expected newline")]).
Proof. split; vm_compute; reflexivity. Qed.

(** A line that is not exactly [y] can still confirm: the scanner skips
    the blanks around the word. *)
Example delete_blank_before_y :
  calls (snd (ProjectDelete (context [] false 0)
                (fresh (mock ["web_1"]) (typed (" y" +:+ nl)))))
  = [(OpListStoppedContainers [], None);
     (OpDelete {| options.RemoveVolume := false |} [], None)].
Proof. vm_compute. reflexivity. Qed.

(** The delete handler on the answer [n]. *)
Lemma delete_confirmation_witness :
  project.ListStoppedContainers (cli.Args (context [] false 0))
    (proj (fresh (mock ["web_1"]) (typed ("n" +:+ nl))))
  = ((["web_1"], None), tick (mock ["web_1"]))
  /\ ["web_1"] <> ([] : list string)
  /\ cli.Bool (context [] false 0) "force" = false
  /\ (fst (ProjectDelete (context [] false 0) (fresh (mock ["web_1"]) (typed ("n" +:+ nl))))
      = inl tt
      /\ calls (snd (ProjectDelete (context [] false 0)
                       (fresh (mock ["web_1"]) (typed ("n" +:+ nl)))))
         = [] ++ [(OpListStoppedContainers [], None)]).
Proof.
  assert (Hne : ["web_1"] <> ([] : list string)) by discriminate.
  split; [reflexivity|]. split; [exact Hne|]. split; [reflexivity|].
  exact (delete_confirmation (context [] false 0)
           (fresh (mock ["web_1"]) (typed ("n" +:+ nl)))
           ["web_1"] (tick (mock ["web_1"])) eq_refl Hne eq_refl).
Defined.

(** C9, counterexample: the call the start handler makes has no timeout
    argument, and the handler does the same whatever the timeout of the
    context is. *)
Lemma start_ignores_timeout :
  calls (snd (ProjectStart (context ["web"] false 10) (fresh (mock []) (typed EmptyString))))
    = [(OpStart ["web"], None)]
  /\ op_timeout (OpStart ["web"]) = None
  /\ ProjectStart (context ["web"] false 10) (fresh (mock []) (typed EmptyString))
     = ProjectStart (context ["web"] false 99) (fresh (mock []) (typed EmptyString)).
Proof. repeat split. Qed.

(** ** The coordination of ProjectUp *)

Section UpClaims.
Context {P : Type} `{project.APIProject P}.
Variables (c : cli.Context) (w0 : World P).

Lemma phase_attach : phase c w0 (attach w0).
Proof. split; reflexivity. Qed.

Lemma phase_step (a : Action) (st st' : UpState P) :
  phase c w0 st -> step c a st = Some st' -> phase c w0 st'.
Proof.
  intros Hph Hstep. destruct st as [w sc lt stk mt ex sel n].
  unfold phase in Hph. unfold step, terminal in Hstep. cbn in Hph, Hstep.
  destruct sel as [[sig|[e|]]|], stk, ex as [ab|], mt; try contradiction;
    try discriminate; destruct a; try discriminate.
  all: try (injection Hstep as <-; exact Hph).
  all: inspect_step Hstep; project_results Hstep.
  all: cbn in Hstep; injection Hstep as <-; unfold phase; cbn.
  all: stop_calls_grown w; phase_closed Hph.
Qed.

Lemma phase_exec (sched : list Action) :
  forall st st', phase c w0 st -> exec c sched st = Some st' -> phase c w0 st'.
Proof.
  induction sched as [|a sched IH]; intros st st' Hph Hexec; cbn [exec] in Hexec.
  - injection Hexec as <-. exact Hph.
  - destruct (step c a st) as [st1|] eqn:Hstep; [|discriminate].
    exact (IH st1 st' (phase_step a st st1 Hph Hstep) Hexec).
Qed.

Lemma finish_spec (st : UpState P) :
  phase c w0 st -> terminal st = false -> selected st <> None ->
  exists st', finish c st = Some st' /\ terminal st' = true
              /\ phase c w0 st' /\ selected st' = selected st.
Proof.
  intros Hph Hterm Hsel. destruct st as [w sc lt stk mt ex sel n].
  unfold phase in Hph. unfold terminal in Hterm. cbn in Hph, Hterm, Hsel.
  destruct sel as [[sig|[e|]]|], stk, ex as [ab|], mt; try contradiction;
    try discriminate; try congruence.
  all: unfold finish, step, terminal; cbn.
  all: unfold ProjectStop, bind, call, abort, ret.
  all: repeat match goal with
              | |- context [project.Stop ?a ?b ?p] =>
                  destruct (project.Stop a b p) as [[?|] ?]
              end; cbn.
  all: eexists; split; [reflexivity|]; split; [reflexivity|]; split; [|reflexivity].
  all: unfold phase; cbn.
  all: stop_calls_grown w; phase_closed Hph.
Qed.

Lemma exec_phase (sched : list Action) (st : UpState P) :
  exec c sched (attach w0) = Some st -> phase c w0 st.
Proof. apply phase_exec, phase_attach. Qed.

(** C1 (amended): in every execution of the attached-mode coordinator
    in which the select takes the termination signal, the execution is
    over or the remaining steps of the goroutine end it, and at its end
    exactly one stop call has been made on the Project Handle and the
    fatal branch of the log result has not fired; when the stop call
    returned no error exactly one completion signal has been sent and
    ProjectUp has returned, and when it returned an error the fatal exit
    of the stop handler has ended the process and no completion signal
    has been sent. *)
Theorem signal_taken_stops_once (sched : list Action) (st : UpState P) (sig : Signal) :
  exec c sched (attach w0) = Some st ->
  selected st = Some (CaseSignal sig) ->
  exists (st' : UpState P) (r : option error),
    (if terminal st then st' = st else finish c st = Some st')
    /\ terminal st' = true
    /\ stop_calls (world st') = stop_calls w0 ++ [(the_stop c, r)]
    /\ sigTask st' <> AtFatal
    /\ match r with
       | None => mainTask st' = MainReturned /\ completions st' = 1%nat
                 /\ exited st' = None
       | Some e => mainTask st' = MainWaiting /\ completions st' = O
                   /\ exited st' = Some (Fatal [AErr e])
       end.
Proof.
  intros Hexec Hsel. pose proof (exec_phase sched st Hexec) as Hph.
  assert (Hend : exists st', (if terminal st then st' = st else finish c st = Some st')
                   /\ terminal st' = true /\ phase c w0 st'
                   /\ selected st' = Some (CaseSignal sig)).
  { destruct (terminal st) eqn:Hterm.
    - exists st. auto.
    - destruct (finish_spec st Hph Hterm) as (st' & Hfin & Ht & Hph' & Hsel').
      + congruence.
      + exists st'. rewrite Hsel' . auto. }
  destruct Hend as (st' & Hfin & Hterm' & Hph' & Hsel').
  exists st'. clear Hexec Hph Hsel.
  destruct st' as [w sc lt stk mt ex sel n].
  unfold phase in Hph'. unfold terminal in Hterm'. cbn in Hph', Hterm', Hsel' |- *.
  subst sel.
  destruct stk, ex as [ab|], mt; try contradiction; try discriminate.
  - destruct Hph' as (e & -> & -> & Hstops). exists (Some e).
    repeat split; try assumption; discriminate.
  - destruct Hph' as (-> & Hstops). exists None.
    repeat split; try assumption; discriminate.
Qed.

(** C6 (amended): in every execution of the attached-mode coordinator in
    which the select receives the result of the log task and the result
    is the nil error, no stop call is made, and the execution is over or the
    remaining step of the goroutine ends it, with one completion signal
    sent, ProjectUp returned and the process not exited. *)
Theorem log_nil_completes_without_stop (sched : list Action) (st : UpState P) :
  exec c sched (attach w0) = Some st ->
  selected st = Some (CaseErr None) ->
  stop_calls (world st) = stop_calls w0
  /\ exists st' : UpState P,
       (if terminal st then st' = st else finish c st = Some st')
       /\ mainTask st' = MainReturned /\ completions st' = 1%nat
       /\ exited st' = None
       /\ stop_calls (world st') = stop_calls w0.
Proof.
  intros Hexec Hsel. pose proof (exec_phase sched st Hexec) as Hph.
  assert (Hquiet : forall s : UpState P,
            phase c w0 s -> selected s = Some (CaseErr None) ->
            stop_calls (world s) = stop_calls w0
            /\ (terminal s = true ->
                mainTask s = MainReturned /\ completions s = 1%nat /\ exited s = None)).
  { intros s Hs Hsels. destruct s as [w sc lt stk mt ex sel n].
    unfold phase in Hs. unfold terminal. cbn in Hs, Hsels |- *. subst sel.
    destruct stk, ex as [ab|], mt; try contradiction; destruct Hs as [-> Hs];
      (split; [exact Hs|]); intros Ht; try discriminate; auto. }
  split; [apply (Hquiet st Hph Hsel)|].
  destruct (terminal st) eqn:Hterm.
  - exists st. destruct (Hquiet st Hph Hsel) as [Hs Hdone].
    destruct (Hdone Hterm) as (Hm & Hc & He). auto.
  - destruct (finish_spec st Hph Hterm) as (st' & Hfin & Ht & Hph' & Hsel').
    + congruence.
    + rewrite Hsel in Hsel'. exists st'.
      destruct (Hquiet st' Hph' Hsel') as [Hs Hdone].
      destruct (Hdone Ht) as (Hm & Hc & He). auto.
Qed.

(** While [p.Log] has not returned, the select cannot receive from
    [errChan]: it can only take the signal case. *)
Lemma log_running (sched : list Action) :
  forall st st',
    logTask st = LogRunning -> (forall err, selected st <> Some (CaseErr err)) ->
    ~ In LogReturns sched ->
    exec c sched st = Some st' ->
    logTask st' = LogRunning /\ forall err, selected st' <> Some (CaseErr err).
Proof.
  induction sched as [|a sched IH]; intros st st' Hlog Hsel Hnot Hexec; cbn [exec] in Hexec.
  - injection Hexec as <-. auto.
  - destruct (step c a st) as [st1|] eqn:Hstep; [|discriminate].
    assert (Hkeep : logTask st1 = LogRunning /\ forall err, selected st1 <> Some (CaseErr err)).
    { destruct a; try (exfalso; apply Hnot; left; reflexivity).
      all: unfold step in Hstep; destruct (terminal st); try discriminate.
      all: destruct st as [w sc lt stk mt ex sel n]; cbn in Hlog, Hsel, Hstep; subst lt.
      all: inspect_step Hstep; project_results Hstep.
      all: cbn in Hstep; injection Hstep as <-; cbn; split; try reflexivity; try exact Hsel.
      all: intros err; discriminate. }
    destruct Hkeep as [Hlog1 Hsel1].
    apply (IH st1 st' Hlog1 Hsel1); [|exact Hexec].
    intros Hin. apply Hnot. right. exact Hin.
Qed.

Lemma select_while_log_runs (sched : list Action) (st : UpState P) :
  ~ In LogReturns sched ->
  exec c sched (attach w0) = Some st ->
  forall err, selected st <> Some (CaseErr err).
Proof.
  intros Hnot Hexec.
  apply (log_running sched (attach w0) st); [reflexivity|discriminate|exact Hnot|exact Hexec].
Qed.
End UpClaims.

(** C1, counterexample: the signal is delivered before the log task has
    any result, and yet (1) when the stop call fails the process ends in
    the fatal exit of the stop handler with no completion signal sent,
    and (2) when the log task returns before the select runs, the select
    may take its result, and ProjectUp returns with no stop call made. *)
Lemma signal_first_without_stop_or_completion :
  (exec up_context [Deliver SIGINT; SelectSignal; RunStop] (attach up_world_failing)
     = Some (after up_context [Deliver SIGINT; SelectSignal; RunStop] up_world_failing)
   /\ terminal (after up_context [Deliver SIGINT; SelectSignal; RunStop] up_world_failing) = true
   /\ stop_calls (world (after up_context [Deliver SIGINT; SelectSignal; RunStop]
                           up_world_failing))
      = [(OpStop 10 ["web"], Some (errors_New "cannot stop"))]
   /\ completions (after up_context [Deliver SIGINT; SelectSignal; RunStop] up_world_failing) = O
   /\ exited (after up_context [Deliver SIGINT; SelectSignal; RunStop] up_world_failing)
      = Some (Fatal [AErr (errors_New "cannot stop")]))
  /\ (exec up_context [Deliver SIGINT; LogReturns; SelectErr; Complete] (attach up_world)
      = Some (after up_context [Deliver SIGINT; LogReturns; SelectErr; Complete] up_world)
      /\ terminal (after up_context [Deliver SIGINT; LogReturns; SelectErr; Complete] up_world)
         = true
      /\ mainTask (after up_context [Deliver SIGINT; LogReturns; SelectErr; Complete] up_world)
         = MainReturned
      /\ completions (after up_context [Deliver SIGINT; LogReturns; SelectErr; Complete] up_world)
         = 1%nat
      /\ stop_calls
           (world (after up_context [Deliver SIGINT; LogReturns; SelectErr; Complete] up_world))
         = []).
Proof. repeat split. Qed.

(** The coordinator after SIGTERM was delivered and the select took it. *)
Lemma signal_taken_stops_once_witness :
  exec up_context [Deliver SIGTERM; SelectSignal] (attach up_world)
  = Some (after up_context [Deliver SIGTERM; SelectSignal] up_world)
  /\ selected (after up_context [Deliver SIGTERM; SelectSignal] up_world)
     = Some (CaseSignal SIGTERM)
  /\ exists (st' : UpState Mock) (r : option error),
       (if terminal (after up_context [Deliver SIGTERM; SelectSignal] up_world)
        then st' = after up_context [Deliver SIGTERM; SelectSignal] up_world
        else finish up_context (after up_context [Deliver SIGTERM; SelectSignal] up_world)
             = Some st')
       /\ terminal st' = true
       /\ stop_calls (world st') = stop_calls up_world ++ [(the_stop up_context, r)]
       /\ sigTask st' <> AtFatal
       /\ match r with
          | None => mainTask st' = MainReturned /\ completions st' = 1%nat
                    /\ exited st' = None
          | Some e => mainTask st' = MainWaiting /\ completions st' = O
                      /\ exited st' = Some (Fatal [AErr e])
          end.
Proof.
  split; [reflexivity|]. split; [reflexivity|].
  exact (signal_taken_stops_once up_context up_world [Deliver SIGTERM; SelectSignal]
           (after up_context [Deliver SIGTERM; SelectSignal] up_world) SIGTERM
           eq_refl eq_refl).
Defined.

(** C6, counterexample: the log task returns nil and offers its result
    on [errChan] before any signal is delivered; a signal is delivered
    before the select runs, the select takes the signal, and the stop
    operation is invoked before completion is signalled. *)
Lemma log_first_but_stop_called :
  exec up_context [LogReturns; Deliver SIGINT; SelectSignal; RunStop; Complete]
    (attach up_world)
  = Some (after up_context [LogReturns; Deliver SIGINT; SelectSignal; RunStop; Complete]
            up_world)
  /\ logTask (after up_context [LogReturns; Deliver SIGINT] up_world) = LogSending None
  /\ selected (after up_context [LogReturns; Deliver SIGINT; SelectSignal; RunStop; Complete]
                 up_world)
     = Some (CaseSignal SIGINT)
  /\ mainTask (after up_context [LogReturns; Deliver SIGINT; SelectSignal; RunStop; Complete]
                 up_world)
     = MainReturned
  /\ stop_calls (world (after up_context [LogReturns; Deliver SIGINT; SelectSignal; RunStop;
                                          Complete] up_world))
     = [(OpStop 10 ["web"], None)].
Proof. repeat split. Qed.

(** The coordinator after the log task returned nil and the select took its
    result, with a signal still queued. *)
Lemma log_nil_completes_without_stop_witness :
  exec up_context [LogReturns; Deliver SIGINT; SelectErr] (attach up_world)
  = Some (after up_context [LogReturns; Deliver SIGINT; SelectErr] up_world)
  /\ selected (after up_context [LogReturns; Deliver SIGINT; SelectErr] up_world)
     = Some (CaseErr None)
  /\ (stop_calls (world (after up_context [LogReturns; Deliver SIGINT; SelectErr] up_world))
      = stop_calls up_world
      /\ exists st' : UpState Mock,
           (if terminal (after up_context [LogReturns; Deliver SIGINT; SelectErr] up_world)
            then st' = after up_context [LogReturns; Deliver SIGINT; SelectErr] up_world
            else finish up_context
                   (after up_context [LogReturns; Deliver SIGINT; SelectErr] up_world)
                 = Some st')
           /\ mainTask st' = MainReturned /\ completions st' = 1%nat
           /\ exited st' = None
           /\ stop_calls (world st') = stop_calls up_world).
Proof.
  split; [reflexivity|]. split; [reflexivity|].
  exact (log_nil_completes_without_stop up_context up_world
           [LogReturns; Deliver SIGINT; SelectErr]
           (after up_context [LogReturns; Deliver SIGINT; SelectErr] up_world)
           eq_refl eq_refl).
Defined.

(** The run handler passes the service and the command on and exits with
    the exit code of the command. *)
Example ProjectRun_exit_code :
  ProjectRun (context ["web"; "ls"; "-l"] false 0) (fresh (mock []) (typed EmptyString))
  = (inr (os_Exit 0),
     {| proj := tick (mock []); calls := [(OpRun "web" ["ls"; "-l"], None)];
        stdout := []; stdin := typed EmptyString |}).
Proof. reflexivity. Qed.

(** ProjectUp as a whole on the schedules above. *)
Example ProjectUp_interrupted :
  option_map fst (ProjectUp up_context [Deliver SIGINT; SelectSignal; RunStop; Complete] up_world)
  = Some (Some (inl tt)).
Proof. reflexivity. Qed.

Example ProjectUp_stop_fails :
  option_map fst (ProjectUp up_context [Deliver SIGINT; SelectSignal; RunStop] up_world_failing)
  = Some (Some (inr (Fatal [AErr (errors_New "cannot stop")]))).
Proof. reflexivity. Qed.

Example ProjectUp_still_waiting :
  option_map fst (ProjectUp up_context [Deliver SIGINT] up_world) = Some None.
Proof. reflexivity. Qed.

(** * Further properties of the handlers *)


(** ** More on the scale handler *)

Lemma scale_token_name (tok name name' : string) (z z' : Z) :
  scale_token tok name z -> scale_token tok name' z' -> name = name' /\ z = z'.
Proof.
  intros H1 H2. destruct H1 as [n cnt z1 Hn Hl].
  inversion H2 as [n' cnt' z2 Hn' Hl' Heq Hname Hz].
  rewrite Hname in Heq.
  pose proof (SplitN_sep name' cnt' Hn') as E. rewrite Heq, (SplitN_sep n cnt Hn) in E.
  injection E as E1 E2. split; [exact E1|].
  apply Atoi_complete in Hl, Hl'. rewrite E2 in Hl. congruence.
Qed.

Lemma Atoi_error_names_text (s : string) (err : error) :
  snd (strconv_Atoi s) = Some err ->
  exists e, err = NumError "ParseInt" s e /\ (e = ErrSyntax \/ e = ErrRange).
Proof.
  destruct s as [|c0 rest]; [intros [= <-]; eauto|].
  rewrite Atoi_unfold.
  set (body := if Ascii.eqb c0 "+" || Ascii.eqb c0 "-" then rest else String c0 rest).
  set (neg := Ascii.eqb c0 "-"). set (s0 := String c0 rest).
  destruct (string_dec body EmptyString) as [Hb|Hb].
  { rewrite Hb. destruct neg; vm_compute; intros [= <-]; eauto. }
  destruct (ParseUint_cases body Hb) as [(Hd & Hv & ->)|(_ & v & e & -> & He)].
  - assert (H0 : 0 <= decimal_value body 0) by (apply decimal_value_mono; [exact Hd|lia]).
    rewrite ParseInt_range_value by lia.
    destruct neg.
    + destruct (decimal_value body 0 <=? 2 ^ 63); [discriminate|]. intros [= <-]. eauto.
    + destruct (decimal_value body 0 <? 2 ^ 63); [discriminate|]. intros [= <-]. eauto.
  - destruct He as [->|[-> ->]].
    + unfold ParseInt_range. simpl. intros [= <-]. eauto.
    + destruct neg; vm_compute; intros [= <-]; eauto.
Qed.

Lemma scale_loop_good_prefix (good : list string) (pairs : list (string * Z)) :
  Forall2 (fun arg nz => scale_token arg (fst nz) (snd nz)) good pairs ->
  forall (rest : list string) (m0 : gmap string Z),
  exists m, scale_loop (good ++ rest) m0 = scale_loop rest m.
Proof.
  induction 1 as [|arg [n z] good pairs Htok _ IH]; intros rest m0.
  - exists m0. reflexivity.
  - simpl in Htok. change ((arg :: good) ++ rest) with (arg :: (good ++ rest)).
    rewrite (scale_loop_token arg n z _ m0 Htok). apply IH.
Qed.

Section ScaleExtras.
Context {P : Type} `{project.APIProject P}.

(** The scale handler reports the first malformed argument: when the
    arguments before it are well-formed, the fatal message carries that
    argument itself if it has no [=], and otherwise the error of
    [strconv.Atoi], which names the count text; later arguments are not
    looked at and the world is unchanged. *)
Theorem scale_reports_first_malformed (c : cli.Context) (w : World P)
    (good rest : list string) (bad : string) (pairs : list (string * Z)) :
  cli.Args c = good ++ bad :: rest ->
  Forall2 (fun arg nz => scale_token arg (fst nz) (snd nz)) good pairs ->
  malformed bad ->
  (contains_byte "=" bad = false /\
   ProjectScale c w = (inr (Fatalf "Invalid scale parameter: %s" [AStr bad]), w))
  \/ (exists name cnt func e,
        bad = name +:+ "=" +:+ cnt /\ contains_byte "=" name = false
        /\ (e = ErrSyntax \/ e = ErrRange)
        /\ ProjectScale c w
           = (inr (Fatalf "Invalid scale parameter: %v" [AErr (NumError func cnt e)]), w)).
Proof.
  intros Hargs Hgood Hbad. unfold ProjectScale. rewrite Hargs.
  destruct (scale_loop_good_prefix good pairs Hgood (bad :: rest) ∅) as [m ->].
  destruct Hbad as [Hno|(name & cnt & -> & Hn & Hnot)]; cbn [scale_loop].
  - left. split; [exact Hno|]. rewrite (SplitN_no_sep bad Hno). reflexivity.
  - right. rewrite (SplitN_sep name cnt Hn).
    destruct (strconv_Atoi cnt) as [z [err|]] eqn:Ha.
    + destruct (Atoi_error_names_text cnt err) as (e & -> & He); [rewrite Ha; reflexivity|].
      exists name, cnt, "ParseInt", e. auto.
    + apply Atoi_sound in Ha. destruct (Hnot z Ha).
Qed.
End ScaleExtras.

Lemma scale_loop_accepts (args : list string) :
  Forall (fun arg => exists n z, scale_token arg n z) args ->
  forall m0 : gmap string Z, exists m, scale_loop args m0 = inl m.
Proof.
  induction 1 as [|arg args (n & z & Htok) _ IH]; intros m0.
  - exists m0. reflexivity.
  - rewrite (scale_loop_token arg n z args m0 Htok). apply IH.
Qed.

Lemma scale_loop_accepted_tokens (args : list string) :
  forall m0 m : gmap string Z,
    scale_loop args m0 = inl m -> Forall (fun arg => exists n z, scale_token arg n z) args.
Proof.
  induction args as [|arg args IH]; intros m0 m Hloop; [constructor|].
  destruct (token_cases arg) as [Hbad|(n & z & Htok)].
  - destruct (scale_loop_malformed arg args m0 Hbad) as (f & a & E). congruence.
  - rewrite (scale_loop_token arg n z args m0 Htok) in Hloop.
    constructor; [eauto|]. exact (IH _ _ Hloop).
Qed.

Lemma scale_loop_names (args : list string) :
  forall m0 m : gmap string Z,
    scale_loop args m0 = inl m ->
    forall name,
      (is_Some (m0 !! name) -> is_Some (m !! name))
      /\ (forall arg z, In arg args -> scale_token arg name z -> is_Some (m !! name)).
Proof.
  induction args as [|arg args IH]; intros m0 m Hloop name.
  - injection Hloop as <-. split; [auto|]. intros arg z [].
  - destruct (token_cases arg) as [Hbad|(n & z & Htok)].
    + destruct (scale_loop_malformed arg args m0 Hbad) as (f & a & E). congruence.
    + rewrite (scale_loop_token arg n z args m0 Htok) in Hloop.
      destruct (IH _ _ Hloop name) as [Hkeep Hnew]. split.
      * intros Hsome. apply Hkeep. rewrite lookup_insert.
        destruct (decide (n = name)); [eauto|exact Hsome].
      * intros arg' z' [<-|Hin] Htok'.
        -- destruct (scale_token_name _ _ _ _ _ Htok Htok') as [-> _].
           apply Hkeep. rewrite lookup_insert_eq. eauto.
        -- exact (Hnew arg' z' Hin Htok').
Qed.

Lemma scale_loop_size (args : list string) :
  forall m0 m : gmap string Z,
    scale_loop args m0 = inl m -> (size m <= size m0 + length args)%nat.
Proof.
  induction args as [|arg args IH]; intros m0 m Hloop.
  - injection Hloop as <-. cbn [length]. lia.
  - destruct (token_cases arg) as [Hbad|(n & z & Htok)].
    + destruct (scale_loop_malformed arg args m0 Hbad) as (f & a & E). congruence.
    + rewrite (scale_loop_token arg n z args m0 Htok) in Hloop.
      specialize (IH _ _ Hloop). cbn [length].
      assert (size (<[n := z]> m0) <= S (size m0))%nat.
      { rewrite map_size_insert. destruct (m0 !! n); unfold id; lia. }
      lia.
Qed.

Section ScaleExtras2.
Context {P : Type} `{project.APIProject P}.

Lemma ProjectScale_reached (c : cli.Context) (w : World P) (t : Z) (m : gmap string Z)
    (err : option error) :
  calls (snd (ProjectScale c w)) = calls w ++ [(OpScale t m, err)] ->
  scale_loop (cli.Args c) ∅ = inl m /\ t = cli.Int c "timeout".
Proof.
  intros Hcalls. destruct (scale_loop (cli.Args c) ∅) as [m'|ab] eqn:E.
  - rewrite (ProjectScale_accepted c w m' E) in Hcalls. cbn [snd calls] in Hcalls.
    apply app_inv_head in Hcalls. injection Hcalls as <- <- _. auto.
  - unfold ProjectScale in Hcalls. rewrite E in Hcalls. cbn [abort snd] in Hcalls.
    apply (f_equal (@length _)) in Hcalls. rewrite length_app in Hcalls.
    cbn [length] in Hcalls. lia.
Qed.

(** When the scale handler reaches the scale call, the map it passes has
    an entry for exactly the names that occur in the arguments, so it
    has at most as many entries as there are arguments. *)
Theorem scale_map_names (c : cli.Context) (w : World P) (t : Z) (m : gmap string Z)
    (err : option error) :
  calls (snd (ProjectScale c w)) = calls w ++ [(OpScale t m, err)] ->
  (forall name, is_Some (m !! name)
                <-> exists arg z, In arg (cli.Args c) /\ scale_token arg name z)
  /\ (size m <= length (cli.Args c))%nat.
Proof.
  intros Hcalls. destruct (ProjectScale_reached c w t m err Hcalls) as [E _]. split.
  - intros name. split.
    + intros [z Hz]. destruct (scale_loop_origin _ _ _ E name z Hz) as [He|(arg & Hin & Htok)].
      * rewrite lookup_empty in He. discriminate.
      * eauto.
    + intros (arg & z & Hin & Htok).
      destruct (scale_loop_names _ _ _ E name) as [_ Hnew]. eauto.
  - pose proof (scale_loop_size _ _ _ E) as Hs. rewrite map_size_empty in Hs. lia.
Qed.

Lemma scale_map_by_membership (args : list string) (m : gmap string Z) :
  scale_loop args ∅ = inl m ->
  (forall arg arg' n z z', In arg args -> In arg' args ->
     scale_token arg n z -> scale_token arg' n z' -> z = z') ->
  forall name z, m !! name = Some z <-> exists arg, In arg args /\ scale_token arg name z.
Proof.
  intros E Hcons name z. split.
  - intros Hz. destruct (scale_loop_origin _ _ _ E name z Hz) as [He|Hex]; [|exact Hex].
    rewrite lookup_empty in He. discriminate.
  - intros (arg & Hin & Htok).
    destruct (scale_loop_names _ _ _ E name) as [_ Hnew].
    destruct (Hnew arg z Hin Htok) as [z' Hz']. rewrite Hz'. f_equal.
    destruct (scale_loop_origin _ _ _ E name z' Hz') as [He|(arg' & Hin' & Htok')].
    + rewrite lookup_empty in He. discriminate.
    + exact (Hcons arg' arg name z' z Hin' Hin Htok' Htok).
Qed.

(** The order of the arguments of the scale handler is irrelevant as
    long as no name occurs with two different counts: two argument lists
    with the same tokens give the same run of the handler. *)
Theorem scale_order_irrelevant (c1 c2 : cli.Context) (w : World P)
    (pairs : list (string * Z)) :
  Forall2 (fun arg nz => scale_token arg (fst nz) (snd nz)) (cli.Args c1) pairs ->
  (forall n z z', In (n, z) pairs -> In (n, z') pairs -> z = z') ->
  (forall arg, In arg (cli.Args c1) <-> In arg (cli.Args c2)) ->
  cli.Int c1 "timeout" = cli.Int c2 "timeout" ->
  ProjectScale c1 w = ProjectScale c2 w.
Proof.
  intros Htoks Hpairs Hsame Htimeout.
  assert (Hpair : forall arg n z, In arg (cli.Args c1) -> scale_token arg n z -> In (n, z) pairs).
  { clear Hsame Hpairs. induction Htoks as [|arg0 [n0 z0] args ps Htok0 _ IH];
      intros arg n z Hin Htok; [destruct Hin|].
    destruct Hin as [<-|Hin].
    - simpl in Htok0. destruct (scale_token_name _ _ _ _ _ Htok0 Htok) as [-> ->].
      left. reflexivity.
    - right. exact (IH arg n z Hin Htok). }
  assert (Hcons1 : forall arg arg' n z z', In arg (cli.Args c1) -> In arg' (cli.Args c1) ->
            scale_token arg n z -> scale_token arg' n z' -> z = z').
  { intros arg arg' n z z' Hin Hin' Htok Htok'.
    exact (Hpairs n z z' (Hpair arg n z Hin Htok) (Hpair arg' n z' Hin' Htok')). }
  destruct (scale_loop_lookup _ _ Htoks ∅) as (m1 & E1 & _).
  pose proof (scale_loop_accepted_tokens _ _ _ E1) as Hwf1.
  assert (Hwf2 : Forall (fun arg => exists n z, scale_token arg n z) (cli.Args c2)).
  { rewrite List.Forall_forall in Hwf1 |- *. intros arg Hin. apply Hwf1, Hsame, Hin. }
  destruct (scale_loop_accepts _ Hwf2 ∅) as [m2 E2].
  assert (Hm : m1 = m2).
  { apply map_eq. intros name.
    pose proof (scale_map_by_membership _ _ E1 Hcons1 name) as M1.
    assert (Hcons2 : forall arg arg' n z z', In arg (cli.Args c2) -> In arg' (cli.Args c2) ->
              scale_token arg n z -> scale_token arg' n z' -> z = z').
    { intros arg arg' n z z' Hin Hin'. apply Hcons1; apply Hsame; assumption. }
    pose proof (scale_map_by_membership _ _ E2 Hcons2 name) as M2.
    destruct (m1 !! name) as [z1|] eqn:L1.
    - symmetry. apply M2. destruct (proj1 (M1 z1) eq_refl) as (arg & Hin & Htok).
      exists arg. split; [apply Hsame; exact Hin|exact Htok].
    - destruct (m2 !! name) as [z2|] eqn:L2; [|reflexivity].
      destruct (proj1 (M2 z2) eq_refl) as (arg & Hin & Htok).
      assert (@None Z = Some z2) as Habs; [|discriminate].
      apply M1. exists arg. split; [apply Hsame; exact Hin|exact Htok]. }
  rewrite (ProjectScale_accepted c1 w m1 E1), (ProjectScale_accepted c2 w m2 E2).
  rewrite Htimeout, Hm. reflexivity.
Qed.
End ScaleExtras2.

(** ** More on the delete handler *)

Lemma SkipSpace_blanks (tail : option error) (pre inp : list rune) :
  forallb is_blank pre = true ->
  SkipSpace tail (pre ++ inp) = SkipSpace tail inp.
Proof.
  induction pre as [|r pre IH]; intros Hpre; [reflexivity|].
  cbn [forallb] in Hpre. apply andb_prop in Hpre as [Hr Hpre].
  unfold is_blank in Hr. apply andb_prop in Hr as [Hr H13]. apply andb_prop in Hr as [Hsp H10].
  apply negb_true_iff in H13, H10.
  change ((r :: pre) ++ inp) with (r :: (pre ++ inp)). cbn [SkipSpace].
  rewrite H13, H10, Hsp. cbn [andb negb]. exact (IH Hpre).
Qed.

Lemma expect_newline_spaces (tail : option error) (post rest : list rune) :
  forallb (fun r => isSpace r && negb (r =? 10)) post = true ->
  expect_newline tail (post ++ 10 :: rest) = (inl tt, rest).
Proof.
  induction post as [|r post IH]; intros Hpost; [reflexivity|].
  cbn [forallb] in Hpost. apply andb_prop in Hpost as [Hr Hpost].
  apply andb_prop in Hr as [Hsp H10]. apply negb_true_iff in H10.
  change ((r :: post) ++ 10 :: rest) with (r :: (post ++ 10 :: rest)). cbn [expect_newline].
  rewrite H10, Hsp. cbn [negb]. exact (IH Hpost).
Qed.

Lemma token_until_space (tail : option error) (word inp : list rune) (r : rune) :
  forallb (fun r => negb (isSpace r)) word = true ->
  isSpace r = true ->
  token_notSpace tail (word ++ r :: inp) = (inl word, r :: inp).
Proof.
  intros Hw Hr. induction word as [|x word IH].
  - cbn [app token_notSpace]. rewrite Hr. reflexivity.
  - cbn [forallb] in Hw. apply andb_prop in Hw as [Hx Hw]. apply negb_true_iff in Hx.
    change ((x :: word) ++ r :: inp) with (x :: (word ++ r :: inp)).
    cbn [token_notSpace]. rewrite Hx, (IH Hw). reflexivity.
Qed.

(** [fmt.Scanln] on a line that holds one word with blanks before it and
    white space after it. *)
Lemma Scanln_line (answer0 : string) (pre word post rest : list rune) (tail : option error) :
  forallb is_blank pre = true ->
  word <> [] ->
  forallb (fun r => negb (isSpace r)) word = true ->
  forallb (fun r => isSpace r && negb (r =? 10)) post = true ->
  fmt_Scanln answer0 {| pending := pre ++ word ++ post ++ 10 :: rest; at_end := tail |}
  = ((string_of_runes word, None), {| pending := rest; at_end := tail |}).
Proof.
  intros Hpre Hne Hw Hpost. destruct word as [|x word]; [congruence|].
  assert (Hx : isSpace x = false).
  { cbn [forallb] in Hw. apply andb_prop in Hw as [Hx _]. apply negb_true_iff in Hx. exact Hx. }
  assert (Htok : token_notSpace tail ((x :: word) ++ post ++ 10 :: rest)
                 = (inl (x :: word), post ++ 10 :: rest)).
  { destruct post as [|p post].
    - apply token_until_space; [exact Hw|reflexivity].
    - apply token_until_space; [exact Hw|].
      cbn [forallb] in Hpost. apply andb_prop in Hpost as [Hp _].
      apply andb_prop in Hp as [Hp _]. exact Hp. }
  unfold fmt_Scanln, convertString. cbn [pending at_end].
  rewrite (SkipSpace_blanks tail pre _ Hpre).
  change ((x :: word) ++ post ++ 10 :: rest) with (x :: (word ++ post ++ 10 :: rest)) in *.
  rewrite !(SkipSpace_word tail x _ Hx), Htok.
  rewrite (expect_newline_spaces tail post rest Hpost). reflexivity.
Qed.

Section DeleteExtras.
Context {P : Type} `{project.APIProject P}.

Lemma ProjectDelete_unfold (c : cli.Context) (w : World P) :
  ProjectDelete c w =
    let args := cli.Args c in
    let listing := project.ListStoppedContainers args (proj w) in
    let stopped := fst (fst listing) in
    let w1 := {| proj := snd listing;
                 calls := calls w ++ [(OpListStoppedContainers args, snd (fst listing))];
                 stdout := stdout w; stdin := stdin w |} in
    let options := {| options.RemoveVolume := cli.Bool c "v" |} in
    let delete (wd : World P) :=
      (match fst (project.Delete options args (proj wd)) with
       | Some e => inr (Fatal [AErr e])
       | None => inl tt
       end,
       {| proj := snd (project.Delete options args (proj wd));
          calls := calls wd ++ [(OpDelete options args,
                                 fst (project.Delete options args (proj wd)))];
          stdout := stdout wd; stdin := stdin wd |}) in
    match snd (fst listing) with
    | Some e => (inr (Fatal [AErr e]), w1)
    | None =>
        if (length stopped =? 0)%nat
        then (inl tt, {| proj := proj w1; calls := calls w1;
                         stdout := stdout w ++ ["No stopped containers" +:+ nl];
                         stdin := stdin w |})
        else if cli.Bool c "force" then delete w1
        else
          let scanned := fmt_Scanln EmptyString (stdin w) in
          let w2 := {| proj := proj w1; calls := calls w1;
                       stdout := stdout w ++ ["Going to remove " +:+ strings_Join stopped ", "
                                              +:+ nl +:+ "Are you sure? [yN]" +:+ nl];
                       stdin := snd scanned |} in
          match snd (fst scanned) with
          | Some e => (inr (Fatal [AErr e]), w2)
          | None =>
              if String.eqb (fst (fst scanned)) "y" || String.eqb (fst (fst scanned)) "Y"
              then delete w2
              else (inl tt, w2)
          end
    end.
Proof.
  cbv zeta. unfold ProjectDelete, bind, call.
  destruct (project.ListStoppedContainers (cli.Args c) (proj w)) as [[stopped [e|]] p1];
    cbn [fst snd]; [reflexivity|].
  destruct (length stopped =? 0)%nat; [reflexivity|].
  destruct (cli.Bool c "force"); cbn [negb].
  - unfold ret. cbn [proj calls stdout stdin].
    destruct (project.Delete _ _ p1) as [[e|] p2]; reflexivity.
  - unfold os_Stdout_Write, Scanln. cbn [proj calls stdout stdin].
    destruct (fmt_Scanln EmptyString (stdin w)) as [[answer [e|]] i']; cbn [fst snd];
      [reflexivity|].
    destruct (String.eqb answer "y"); cbn [negb andb orb].
    + unfold ret. cbn [proj calls stdout stdin].
      destruct (project.Delete _ _ p1) as [[e|] p2]; reflexivity.
    + destruct (String.eqb answer "Y"); cbn [negb].
      * unfold ret. cbn [proj calls stdout stdin].
        destruct (project.Delete _ _ p1) as [[e|] p2]; reflexivity.
      * reflexivity.
Qed.

(** With the force flag and a non-empty list of stopped containers the
    delete handler asks nothing: it prints nothing, leaves standard input
    alone, and calls delete once with the positional arguments and the
    flag [v]. *)
Theorem delete_forced (c : cli.Context) (w : World P) (stopped : list string) (p1 : P) :
  project.ListStoppedContainers (cli.Args c) (proj w) = ((stopped, None), p1) ->
  stopped <> [] ->
  cli.Bool c "force" = true ->
  let options := {| options.RemoveVolume := cli.Bool c "v" |} in
  let deleted := project.Delete options (cli.Args c) p1 in
  ProjectDelete c w =
    (match fst deleted with
     | Some e => inr (Fatal [AErr e])
     | None => inl tt
     end,
     {| proj := snd deleted;
        calls := calls w ++ [(OpListStoppedContainers (cli.Args c), None);
                             (OpDelete options (cli.Args c), fst deleted)];
        stdout := stdout w; stdin := stdin w |}).
Proof.
  intros Hlist Hne Hforce. rewrite ProjectDelete_unfold. cbv zeta. rewrite Hlist, Hforce.
  cbn [fst snd proj calls stdout stdin].
  destruct stopped as [|s0 stopped]; [congruence|]. cbn [length Nat.eqb].
  rewrite <- app_assoc. reflexivity.
Qed.

(** The delete handler invokes the delete operation exactly when the
    query succeeded with a non-empty list and the deletion is confirmed
    (by the force flag, or by a scanned answer [y] or [Y]); it then
    invokes it once, on the positional arguments, with [RemoveVolume]
    from the flag [v]. *)
Theorem delete_called_iff (c : cli.Context) (w : World P) :
  let args := cli.Args c in
  let listing := project.ListStoppedContainers args (proj w) in
  let options := {| options.RemoveVolume := cli.Bool c "v" |} in
  let confirmed :=
    cli.Bool c "force"
    || match fst (fmt_Scanln EmptyString (stdin w)) with
       | (answer, None) => String.eqb answer "y" || String.eqb answer "Y"
       | (_, Some _) => false
       end in
  let reached :=
    match snd (fst listing) with
    | None => negb (length (fst (fst listing)) =? 0)%nat && confirmed
    | Some _ => false
    end in
  List.filter is_delete (calls (snd (ProjectDelete c w)))
  = List.filter is_delete (calls w)
    ++ (if reached
        then [(OpDelete options args, fst (project.Delete options args (snd listing)))]
        else []).
Proof.
  rewrite ProjectDelete_unfold. cbv zeta.
  destruct (project.ListStoppedContainers (cli.Args c) (proj w)) as [[stopped [e|]] p1];
    cbn [fst snd].
  2: destruct (length stopped =? 0)%nat; cbn [negb andb].
  3: destruct (cli.Bool c "force"); cbn [orb].
  4: destruct (fmt_Scanln EmptyString (stdin w)) as [[answer [e|]] i']; cbn [fst snd].
  5: destruct (String.eqb answer "y" || String.eqb answer "Y").
  all: cbn [fst snd calls proj]; rewrite !List.filter_app;
    cbn [List.filter is_delete fst]; rewrite ?app_nil_r; reflexivity.
Qed.

(** Standard input and output of the delete handler: it reads standard
    input only to ask (query succeeded, list not empty, no force flag),
    and then by one [fmt.Scanln]; it prints the notice when the list is
    empty, the prompt with the containers when it asks, and nothing
    otherwise. *)
Theorem delete_input_and_output (c : cli.Context) (w : World P) :
  let listing := project.ListStoppedContainers (cli.Args c) (proj w) in
  let stopped := fst (fst listing) in
  let w' := snd (ProjectDelete c w) in
  match snd (fst listing) with
  | Some _ => stdin w' = stdin w /\ stdout w' = stdout w
  | None =>
      if (length stopped =? 0)%nat
      then stdin w' = stdin w /\ stdout w' = stdout w ++ ["No stopped containers" +:+ nl]
      else if cli.Bool c "force"
      then stdin w' = stdin w /\ stdout w' = stdout w
      else stdin w' = snd (fmt_Scanln EmptyString (stdin w))
           /\ stdout w' = stdout w ++ ["Going to remove " +:+ strings_Join stopped ", "
                                       +:+ nl +:+ "Are you sure? [yN]" +:+ nl]
  end.
Proof.
  rewrite ProjectDelete_unfold. cbv zeta.
  destruct (project.ListStoppedContainers (cli.Args c) (proj w)) as [[stopped [e|]] p1];
    cbn [fst snd]; [split; reflexivity|].
  destruct (length stopped =? 0)%nat; [split; reflexivity|].
  destruct (cli.Bool c "force"); [split; reflexivity|].
  destruct (fmt_Scanln EmptyString (stdin w)) as [[answer [e|]] i']; cbn [fst snd];
    [split; reflexivity|].
  destruct (String.eqb answer "y" || String.eqb answer "Y"); split; reflexivity.
Qed.

(** When the delete handler asks, a line that holds [y] or [Y] with
    blanks before it and white space after it (a carriage return, as in a
    line that ends in CR LF, included) confirms: delete is invoked, and
    what follows the newline is left on standard input. *)
Theorem delete_confirmed_with_blanks (c : cli.Context) (w : World P)
    (stopped : list string) (p1 : P) (pre post rest : list rune) (r : rune) :
  project.ListStoppedContainers (cli.Args c) (proj w) = ((stopped, None), p1) ->
  stopped <> [] ->
  cli.Bool c "force" = false ->
  pending (stdin w) = pre ++ [r] ++ post ++ 10 :: rest ->
  r = 121 \/ r = 89 ->
  forallb is_blank pre = true ->
  forallb (fun r => isSpace r && negb (r =? 10)) post = true ->
  let options := {| options.RemoveVolume := cli.Bool c "v" |} in
  calls (snd (ProjectDelete c w))
  = calls w ++ [(OpListStoppedContainers (cli.Args c), None);
                (OpDelete options (cli.Args c),
                 fst (project.Delete options (cli.Args c) p1))]
  /\ pending (stdin (snd (ProjectDelete c w))) = rest.
Proof.
  intros Hlist Hne Hforce Hin Hr Hpre Hpost.
  assert (Hscan : fmt_Scanln EmptyString (stdin w)
                  = ((string_of_runes [r], None),
                     {| pending := rest; at_end := at_end (stdin w) |})).
  { destruct (stdin w) as [inp tail]. cbn [pending at_end] in *. rewrite Hin.
    apply Scanln_line; [exact Hpre|discriminate| |exact Hpost].
    destruct Hr as [->| ->]; reflexivity. }
  rewrite ProjectDelete_unfold. cbv zeta. rewrite Hlist, Hforce, Hscan.
  cbn [fst snd proj calls stdout stdin].
  destruct stopped as [|s0 stopped]; [congruence|]. cbn [length Nat.eqb].
  assert (Hyes : String.eqb (string_of_runes [r]) "y" || String.eqb (string_of_runes [r]) "Y"
                 = true) by (destruct Hr as [->| ->]; reflexivity).
  rewrite Hyes. cbn [snd calls stdin pending]. rewrite <- app_assoc. split; reflexivity.
Qed.
End DeleteExtras.

(** ** More on the run handler *)

Section RunExtras.
Context {P : Type} `{project.APIProject P}.

(** The run handler never returns normally: it ends in a fatal exit, in
    the panic of line 162 or in [os.Exit]; and it makes at most one call
    on the project. *)
Theorem run_never_returns (c : cli.Context) (w : World P) :
  (exists ab, fst (ProjectRun c w) = inr ab)
  /\ exists l, calls (snd (ProjectRun c w)) = calls w ++ l /\ (length l <= 1)%nat.
Proof.
  unfold ProjectRun, bind, call.
  destruct (cli.Args c) as [|service [|c1 cmd]]; cbn.
  - split; [eauto|]. exists []. rewrite app_nil_r. split; [reflexivity|cbn; lia].
  - split; [eauto|]. exists []. rewrite app_nil_r. split; [reflexivity|cbn; lia].
  - destruct (project.Run service (c1 :: cmd) (proj w)) as [[code [e|]] p']; cbn;
      (split; [eauto|]); eexists; (split; [reflexivity|cbn; lia]).
Qed.

(** With a service and at least one command token the run handler calls
    run once with the service and the command, and the process exits
    with the exit code of the command, or fatally when run reports an
    error. *)
Theorem run_exit_code (c : cli.Context) (w : World P) (service c1 : string)
    (cmd : list string) :
  cli.Args c = service :: c1 :: cmd ->
  let ran := project.Run service (c1 :: cmd) (proj w) in
  ProjectRun c w =
    (inr (match snd (fst ran) with
          | Some e => Fatal [AErr e]
          | None => os_Exit (fst (fst ran))
          end),
     {| proj := snd ran;
        calls := calls w ++ [(OpRun service (c1 :: cmd), snd (fst ran))];
        stdout := stdout w; stdin := stdin w |}).
Proof.
  intros Hargs. cbv zeta. unfold ProjectRun, bind, call. rewrite Hargs. cbn.
  destruct (project.Run service (c1 :: cmd) (proj w)) as [[code [e|]] p']; reflexivity.
Qed.
End RunExtras.


Section UpExtras.
Context {P : Type} `{project.APIProject P}.
Variables (c : cli.Context) (w0 : World P).

Lemma log_phase_step (a : Action) (st st' : UpState P) :
  phase c w0 st -> log_phase c w0 st -> step c a st = Some st' -> log_phase c w0 st'.
Proof.
  intros Hp Hph Hstep. destruct st as [w sc lt stk mt ex sel n].
  unfold log_phase in Hph. unfold phase in Hp. unfold step in Hstep. cbn in Hp, Hph, Hstep.
  destruct (terminal _); [discriminate|].
  destruct a; inspect_step Hstep; project_results Hstep.
  all: cbn in Hstep; injection Hstep as <-; unfold log_phase, log_calls in *; cbn in *.
  all: rewrite ?List.filter_app; cbn [List.filter is_log fst]; rewrite ?app_nil_r.
  all: try exact Hph.
  all: try (destruct Hph as [Hl Hs]; split; [rewrite ?Hl; reflexivity|exact Hs]).
  all: try (destruct Hph as [Hl Hs]; eexists; split; [exact Hl|reflexivity]).
  all: try (destruct Hph as (err & Hl & Hs); exists err; split; [rewrite ?Hl; reflexivity|assumption]).
  all: destruct lt; try (destruct Hph as [Hl Hs]; split; [exact Hl|intros; discriminate]).
  all: destruct Hph as (err & Hl & ->); destruct err; contradiction.
Qed.

Lemma log_phase_exec (sched : list Action) :
  forall st st', phase c w0 st -> log_phase c w0 st -> exec c sched st = Some st' ->
                 log_phase c w0 st'.
Proof.
  induction sched as [|a sched IH]; intros st st' Hp Hph Hexec; cbn [exec] in Hexec.
  - injection Hexec as <-. exact Hph.
  - destruct (step c a st) as [st1|] eqn:Hstep; [|discriminate].
    exact (IH st1 st' (phase_step c w0 a st st1 Hp Hstep)
              (log_phase_step a st st1 Hp Hph Hstep) Hexec).
Qed.

Lemma exec_log_phase (sched : list Action) (st : UpState P) :
  exec c sched (attach w0) = Some st -> log_phase c w0 st.
Proof.
  apply log_phase_exec; [apply phase_attach|].
  split; [reflexivity|discriminate].
Qed.

Lemma io_phase_step (a : Action) (st st' : UpState P) :
  phase c w0 st -> io_phase w0 st -> step c a st = Some st' -> io_phase w0 st'.
Proof.
  intros Hp Hph Hstep. destruct st as [w sc lt stk mt ex sel n].
  unfold io_phase in Hph. unfold phase in Hp. unfold step in Hstep. cbn in Hp, Hph, Hstep.
  destruct (terminal _); [discriminate|].
  destruct a; inspect_step Hstep; project_results Hstep.
  all: cbn in Hstep; injection Hstep as <-; unfold io_phase in *; cbn in *.
  all: try exact Hph.
  all: destruct Hph as [Hi Ho]; split; [exact Hi|].
  all: destruct sel as [[?|[?|]]|]; try contradiction; try discriminate.
  all: rewrite ?Ho, ?app_nil_r; reflexivity.
Qed.

Lemma io_phase_exec (sched : list Action) :
  forall st st', phase c w0 st -> io_phase w0 st -> exec c sched st = Some st' ->
                 io_phase w0 st'.
Proof.
  induction sched as [|a sched IH]; intros st st' Hp Hph Hexec; cbn [exec] in Hexec.
  - injection Hexec as <-. exact Hph.
  - destruct (step c a st) as [st1|] eqn:Hstep; [|discriminate].
    exact (IH st1 st' (phase_step c w0 a st st1 Hp Hstep)
              (io_phase_step a st st1 Hp Hph Hstep) Hexec).
Qed.

Lemma signal_phase_step (a : Action) (d : bool) (st st' : UpState P) :
  signal_phase w0 d st -> step c a st = Some st' ->
  signal_phase w0 (d || is_deliver a) st'.
Proof.
  intros Hph Hstep. destruct st as [w sc lt stk mt ex sel n].
  unfold signal_phase in Hph. unfold step in Hstep. cbn in Hph, Hstep.
  destruct (terminal _); [discriminate|]. destruct Hph as [Hlen Hnone].
  destruct a; inspect_step Hstep; project_results Hstep.
  all: cbn in Hstep; injection Hstep as <-; unfold signal_phase, stop_calls in *; cbn in *.
  all: rewrite ?orb_true_r, ?orb_false_r.
  all: rewrite ?List.filter_app; cbn [List.filter is_stop fst]; rewrite ?app_nil_r.
  all: try (split; [try lia; destruct sc as [|? ?]; cbn in *; lia
                   |intros Hd; try discriminate;
                     destruct (Hnone Hd) as (Hq & Hs & Hsel & Hst); try discriminate;
                     try congruence;
                     repeat split; try assumption; try discriminate; congruence]).
Qed.

Lemma signal_phase_exec (sched : list Action) :
  forall d st st', signal_phase w0 d st -> exec c sched st = Some st' ->
                   signal_phase w0 (d || existsb is_deliver sched) st'.
Proof.
  induction sched as [|a sched IH]; intros d st st' Hph Hexec; cbn [exec existsb] in *.
  - injection Hexec as <-. rewrite orb_false_r. exact Hph.
  - destruct (step c a st) as [st1|] eqn:Hstep; [|discriminate].
    rewrite orb_assoc. exact (IH _ st1 st' (signal_phase_step a d st st1 Hph Hstep) Hexec).
Qed.

Lemma exec_signal_phase (sched : list Action) (st : UpState P) :
  exec c sched (attach w0) = Some st ->
  signal_phase w0 (existsb is_deliver sched) st.
Proof.
  intros Hexec. apply (signal_phase_exec sched false (attach w0) st); [|exact Hexec].
  split; [cbn; lia|]. intros _. repeat split; discriminate.
Qed.

Lemma exec_io_phase (sched : list Action) (st : UpState P) :
  exec c sched (attach w0) = Some st -> io_phase w0 st.
Proof.
  apply io_phase_exec; [apply phase_attach|].
  split; [reflexivity|]. cbn. rewrite app_nil_r. reflexivity.
Qed.

(** When the select receives a non-nil error from the log task, the
    process ends in the fatal exit with that error, which is the error
    the call of [p.Log] returned; no stop call is made, no completion
    signal is sent, ProjectUp does not return and no further step is
    possible. *)
Theorem up_log_error_is_fatal (sched : list Action) (st : UpState P) (e : error) :
  exec c sched (attach w0) = Some st ->
  selected st = Some (CaseErr (Some e)) ->
  exited st = Some (Fatal [AErr e])
  /\ mainTask st = MainWaiting
  /\ completions st = O
  /\ stop_calls (world st) = stop_calls w0
  /\ log_calls (world st) = log_calls w0 ++ [(OpLog true (cli.Args c), Some e)]
  /\ forall a, step c a st = None.
Proof.
  intros Hexec Hsel. pose proof (exec_phase c w0 sched st Hexec) as Hp.
  pose proof (exec_log_phase sched st Hexec) as Hl.
  destruct st as [w sc lt stk mt ex sel n]. unfold phase in Hp. unfold log_phase in Hl.
  cbn in Hp, Hl, Hsel |- *. subst sel.
  destruct stk, ex as [ab|], mt; try contradiction. destruct Hp as (-> & -> & Hs).
  repeat split; try assumption.
  destruct lt.
  - destruct Hl as [_ Hl]. destruct (Hl (Some e)). reflexivity.
  - destruct Hl as [_ Hl]. destruct (Hl (Some e)). reflexivity.
  - destruct Hl as (err & Hl & [= <-]). exact Hl.
Qed.

(** In every execution of the coordinator at most one stop call is made
    (the one of ProjectStop), at most one completion signal is sent, a
    completion signal is sent exactly when ProjectUp has returned, and
    ProjectUp does not return once the process has exited. *)
Theorem up_at_most_one_stop (sched : list Action) (st : UpState P) :
  exec c sched (attach w0) = Some st ->
  (exists l, stop_calls (world st) = stop_calls w0 ++ l /\ (length l <= 1)%nat
             /\ forall call, In call l -> fst call = the_stop c)
  /\ (completions st <= 1)%nat
  /\ (completions st = 1%nat <-> mainTask st = MainReturned)
  /\ (mainTask st = MainReturned -> exited st = None).
Proof.
  intros Hexec. pose proof (exec_phase c w0 sched st Hexec) as Hp.
  destruct st as [w sc lt stk mt ex sel n]. unfold phase in Hp. cbn in Hp |- *.
  destruct sel as [[sig|[e|]]|], stk, ex as [ab|], mt; try contradiction.
  all: repeat match type of Hp with
              | _ /\ _ => destruct Hp as [? Hp]
              | exists _, _ => destruct Hp as [? Hp]
              end; subst.
  all: split; [first [ exists []; rewrite app_nil_r; split; [assumption|];
                       split; [cbn; lia|intros ? []]
                     | eexists; split; [eassumption|]; split; [cbn; lia|];
                       intros ? [<-|[]]; reflexivity ]|].
  all: split; [lia|]; split; [split; intros; (lia || discriminate || reflexivity)|].
  all: intros; (reflexivity || discriminate).
Qed.

(** Without a signal delivered there is no graceful stop: no stop call
    is made, the select does not take the signal case, and the notice is
    not printed. *)
Theorem up_no_stop_without_signal (sched : list Action) (st : UpState P) :
  exec c sched (attach w0) = Some st ->
  existsb is_deliver sched = false ->
  stop_calls (world st) = stop_calls w0
  /\ (forall sig, selected st <> Some (CaseSignal sig))
  /\ stdout (world st) = stdout w0.
Proof.
  intros Hexec Hnone. destruct (exec_signal_phase sched st Hexec) as [_ Hs].
  rewrite Hnone in Hs. destruct (Hs eq_refl) as (_ & _ & Hsel & Hstops).
  split; [exact Hstops|]. split; [exact Hsel|].
  destruct (exec_io_phase sched st Hexec) as [_ Ho]. rewrite Ho.
  destruct (selected st) as [[sig|err]|]; [destruct (Hsel sig); reflexivity| |];
    apply app_nil_r.
Qed.

(** The coordinator waits: nothing happens before a signal is delivered
    or [p.Log] returns, and as long as the select has not fired ProjectUp
    has not returned, the process has not exited and no stop call has
    been made. *)
Theorem up_waits_for_an_event (sched : list Action) (st : UpState P) :
  exec c sched (attach w0) = Some st ->
  (existsb is_event sched = false -> sched = [] /\ st = attach w0)
  /\ (selected st = None ->
      terminal st = false /\ completions st = O /\ stop_calls (world st) = stop_calls w0).
Proof.
  intros Hexec. split.
  - intros Hnone. destruct sched as [|a sched].
    + injection Hexec as <-. auto.
    + cbn [existsb] in Hnone. apply orb_false_elim in Hnone as [Ha _].
      destruct a; try discriminate; cbn in Hexec; discriminate.
  - intros Hsel. pose proof (exec_phase c w0 sched st Hexec) as Hp.
    destruct st as [w sc lt stk mt ex sel n]. unfold phase in Hp. cbn in Hp, Hsel |- *.
    subst sel. destruct stk, ex as [ab|], mt; try contradiction.
    destruct Hp as [-> Hs]. auto.
Qed.

(** [signalChan] never holds more than one signal, and a signal
    delivered while one is pending is dropped. *)
Theorem up_signal_buffer (sched : list Action) (st : UpState P) (sig : Signal) :
  exec c sched (attach w0) = Some st ->
  (length (signalChan st) <= 1)%nat
  /\ (signalChan st <> [] -> terminal st = false -> step c (Deliver sig) st = Some st).
Proof.
  intros Hexec. destruct (exec_signal_phase sched st Hexec) as [Hlen _].
  split; [exact Hlen|]. intros Hne Hterm.
  destruct st as [w sc lt stk mt ex sel n]. unfold step. rewrite Hterm. cbn in *.
  destruct sc as [|s [|s' sc]]; [congruence|reflexivity|cbn in Hlen; lia].
Qed.

(** During the coordination [p.Log] is called at most once, in follow
    mode and on the positional arguments, and what the select receives
    from [errChan] is the result of that call. *)
Theorem up_log_called_once (sched : list Action) (st : UpState P) :
  exec c sched (attach w0) = Some st ->
  exists l, log_calls (world st) = log_calls w0 ++ l /\ (length l <= 1)%nat
            /\ (forall call, In call l -> fst call = OpLog true (cli.Args c))
            /\ (forall err, selected st = Some (CaseErr err) ->
                            l = [(OpLog true (cli.Args c), err)]).
Proof.
  intros Hexec. pose proof (exec_log_phase sched st Hexec) as Hl.
  unfold log_phase in Hl. destruct (logTask st).
  - destruct Hl as [Hl Hs]. exists []. rewrite app_nil_r.
    split; [exact Hl|]. split; [cbn; lia|]. split; [intros ? []|].
    intros err Hsel. destruct (Hs err Hsel).
  - destruct Hl as [Hl Hs]. eexists. split; [exact Hl|]. split; [cbn; lia|].
    split; [intros ? [<-|[]]; reflexivity|]. intros err' Hsel. destruct (Hs err' Hsel).
  - destruct Hl as (err0 & Hl & Hs). eexists. split; [exact Hl|]. split; [cbn; lia|].
    split; [intros ? [<-|[]]; reflexivity|]. intros err' Hsel. congruence.
Qed.


(** When [p.Up] reports an error, ProjectUp is fatal with that error,
    whatever the flag [d] and whatever the schedule: the goroutines are
    never started, and the only call made is the one of [p.Up], with the
    create options read from the three flags. *)
Theorem up_failure_is_fatal (sched : list Action) (e : error) (p' : P) :
  let options := {| options.Up_Create :=
                      {| options.NoRecreate := cli.Bool c "no-recreate";
                         options.ForceRecreate := cli.Bool c "force-recreate";
                         options.NoBuild := cli.Bool c "no-build" |} |} in
  project.Up options (cli.Args c) (proj w0) = (Some e, p') ->
  ProjectUp c sched w0
  = Some (Some (inr (Fatal [AErr e])),
          {| proj := p'; calls := calls w0 ++ [(OpUp options (cli.Args c), Some e)];
             stdout := stdout w0; stdin := stdin w0 |}).
Proof.
  cbv zeta. intros Hup. unfold ProjectUp, ProjectUp_start, bind, call. rewrite Hup.
  reflexivity.
Qed.
End UpExtras.


Section MoreExtras.
Context {P : Type} `{project.APIProject P} `{project_ext.Methods P}.

(** With any number of positional arguments other than two the port
    handler is fatal before it calls the project: the world is
    unchanged. *)
Theorem port_wrong_argument_count (c : cli_ext.Context) (w : World P) :
  length (cli.Args (cli_ext.base c)) <> 2%nat ->
  ProjectPort c w
  = (inr (Fatalf "Please pass arguments in the form: SERVICE PORT" []), w).
Proof.
  intros Hlen. unfold ProjectPort, bind. cbv zeta.
  destruct (Nat.eqb_spec (length (cli.Args (cli_ext.base c))) 2) as [Heq|_]; [contradiction|].
  reflexivity.
Qed.

(** With two positional arguments the port handler resolves the port
    once, with the flags [index] and [protocol], the first argument as
    service and the second as port; it prints the result and a newline
    on success and nothing on failure, which is fatal. *)
Theorem port_two_arguments (c : cli_ext.Context) (w : World P) (service port : string) :
  cli.Args (cli_ext.base c) = [service; port] ->
  let resolved := project_ext.Port (cli.Int (cli_ext.base c) "index")
                    (cli_ext.String c "protocol") service port (proj w) in
  ProjectPort c w =
    match snd (fst resolved) with
    | Some e =>
        (inr (Fatal [AErr e]),
         {| proj := snd resolved; calls := calls w; stdout := stdout w; stdin := stdin w |})
    | None =>
        (inl tt,
         {| proj := snd resolved; calls := calls w;
            stdout := stdout w ++ [fst (fst resolved) +:+ nl]; stdin := stdin w |})
    end.
Proof.
  intros Hargs. cbv zeta. unfold ProjectPort, bind, invoke, index_args. cbv zeta.
  rewrite Hargs. cbn.
  destruct (project_ext.Port _ _ service port (proj w)) as [[resolved [e|]] p']; reflexivity.
Qed.
End MoreExtras.

(** The adapter: when the factory fails, the result is the fatal exit
    with its error and the action is not run (the world is unchanged,
    whatever the action); when it succeeds, the result is that of the
    action on the project made. *)
Theorem WithProject_adapter {C P : Type} (factory : C -> P + error)
    (action : ProjectAction C P) (context : C) (w : World (option P)) :
  match factory context with
  | inr err =>
      WithProject factory action context w
      = (inr (Fatalf "Failed to read project: %v" [AErr err]), w)
  | inl p =>
      WithProject factory action context w
      = (fst (action context (with_proj p w)),
         with_proj (Some (proj (snd (action context (with_proj p w)))))
           (snd (action context (with_proj p w))))
  end.
Proof.
  unfold WithProject. destruct (factory context) as [p|err]; [|reflexivity].
  destruct (action context (with_proj p w)) as [r w']. reflexivity.
Qed.

(** BeforeApp always returns nil; it raises the level to debug exactly
    when the global flag [verbose] is set and otherwise leaves it; and
    the note is logged when [verbose] is set or the level already admits
    warnings. *)
Theorem BeforeApp_verbosity (c : cli_ext.Context) (lg : Logger) :
  fst (BeforeApp c lg) = None
  /\ logger_Level (snd (BeforeApp c lg))
     = (if cli_ext.GlobalBool c "verbose" then DebugLevel else logger_Level lg)
  /\ logger_Out (snd (BeforeApp c lg))
     = logger_Out lg
       ++ (if cli_ext.GlobalBool c "verbose"
              || (level_rank WarnLevel <=? level_rank (logger_Level lg))%nat
           then [(WarnLevel, disclaimer)] else []).
Proof.
  unfold BeforeApp. cbv zeta. destruct (cli_ext.GlobalBool c "verbose").
  - repeat split.
  - unfold logrus_Warning. cbn [orb].
    destruct (level_rank WarnLevel <=? level_rank (logger_Level lg))%nat; cbn;
      rewrite ?app_nil_r; repeat split.
Qed.

(** ** The further properties at concrete inputs *)

(** The scale handler on [web=3 db cache=x]: [db] is the first malformed
    argument. *)
Lemma scale_reports_first_malformed_witness :
  cli.Args (context ["web=3"; "db"; "cache=x"] false 10) = ["web=3"] ++ "db" :: ["cache=x"]
  /\ Forall2 (fun arg nz => scale_token arg (fst nz) (snd nz)) ["web=3"] [("web", 3)]
  /\ malformed "db"
  /\ ((contains_byte "=" "db" = false /\
       ProjectScale (context ["web=3"; "db"; "cache=x"] false 10)
         (fresh (mock []) (typed EmptyString))
       = (inr (Fatalf "Invalid scale parameter: %s" [AStr "db"]),
          fresh (mock []) (typed EmptyString)))
      \/ (exists name cnt func e,
            "db" = name +:+ "=" +:+ cnt /\ contains_byte "=" name = false
            /\ (e = ErrSyntax \/ e = ErrRange)
            /\ ProjectScale (context ["web=3"; "db"; "cache=x"] false 10)
                 (fresh (mock []) (typed EmptyString))
               = (inr (Fatalf "Invalid scale parameter: %v" [AErr (NumError func cnt e)]),
                  fresh (mock []) (typed EmptyString)))).
Proof.
  assert (Hgood : Forall2 (fun arg nz => scale_token arg (fst nz) (snd nz))
                    ["web=3"] [("web", 3)]).
  { constructor; [|constructor]. apply (scale_token_intro "web" "3" 3); [reflexivity|].
    apply (int_unsigned "3"); [discriminate|reflexivity|apply Z.leb_le; reflexivity]. }
  assert (Hbad : malformed "db") by (left; reflexivity).
  split; [reflexivity|]. split; [exact Hgood|]. split; [exact Hbad|].
  exact (scale_reports_first_malformed (context ["web=3"; "db"; "cache=x"] false 10)
           (fresh (mock []) (typed EmptyString)) ["web=3"] ["cache=x"] "db" [("web", 3)]
           eq_refl Hgood Hbad).
Defined.

(** The scale handler on [web=3 web=5]. *)
Lemma scale_map_names_witness :
  calls (snd (ProjectScale (context ["web=3"; "web=5"] false 10)
                (fresh (mock []) (typed EmptyString))))
  = calls (fresh (mock []) (typed EmptyString)) ++ [(OpScale 10 {[ "web" := 5 ]}, None)]
  /\ ((forall name, is_Some (({[ "web" := 5 ]} : gmap string Z) !! name)
                    <-> exists arg z, In arg (cli.Args (context ["web=3"; "web=5"] false 10))
                                      /\ scale_token arg name z)
      /\ (size ({[ "web" := 5%Z ]} : gmap string Z)
          <= length (cli.Args (context ["web=3"; "web=5"] false 10)))%nat).
Proof.
  assert (Hcalls : calls (snd (ProjectScale (context ["web=3"; "web=5"] false 10)
                                (fresh (mock []) (typed EmptyString))))
                   = calls (fresh (mock []) (typed EmptyString))
                     ++ [(OpScale 10 {[ "web" := 5 ]}, None)])
    by (vm_compute; reflexivity).
  split; [exact Hcalls|].
  exact (scale_map_names (context ["web=3"; "web=5"] false 10)
           (fresh (mock []) (typed EmptyString)) 10 {[ "web" := 5 ]} None Hcalls).
Defined.

(** The scale handler on [web=3 db=1] and on [db=1 web=3]. *)
Lemma scale_order_irrelevant_witness :
  Forall2 (fun arg nz => scale_token arg (fst nz) (snd nz))
    (cli.Args (context ["web=3"; "db=1"] false 10)) [("web", 3); ("db", 1)]
  /\ (forall n z z', In (n, z) [("web", 3); ("db", 1)] ->
                     In (n, z') [("web", 3); ("db", 1)] -> z = z')
  /\ (forall arg, In arg (cli.Args (context ["web=3"; "db=1"] false 10))
                  <-> In arg (cli.Args (context ["db=1"; "web=3"] false 10)))
  /\ cli.Int (context ["web=3"; "db=1"] false 10) "timeout"
     = cli.Int (context ["db=1"; "web=3"] false 10) "timeout"
  /\ ProjectScale (context ["web=3"; "db=1"] false 10) (fresh (mock []) (typed EmptyString))
     = ProjectScale (context ["db=1"; "web=3"] false 10) (fresh (mock []) (typed EmptyString)).
Proof.
  assert (Htoks : Forall2 (fun arg nz => scale_token arg (fst nz) (snd nz))
                    (cli.Args (context ["web=3"; "db=1"] false 10)) [("web", 3); ("db", 1)]).
  { constructor; [|constructor; [|constructor]].
    - apply (scale_token_intro "web" "3" 3); [reflexivity|].
      apply (int_unsigned "3"); [discriminate|reflexivity|apply Z.leb_le; reflexivity].
    - apply (scale_token_intro "db" "1" 1); [reflexivity|].
      apply (int_unsigned "1"); [discriminate|reflexivity|apply Z.leb_le; reflexivity]. }
  assert (Hpairs : forall n z z', In (n, z) [("web", 3); ("db", 1)] ->
                     In (n, z') [("web", 3); ("db", 1)] -> z = z').
  { intros n z z' [E1|[E1|[]]] [E2|[E2|[]]]; congruence. }
  assert (Hsame : forall arg, In arg (cli.Args (context ["web=3"; "db=1"] false 10))
                    <-> In arg (cli.Args (context ["db=1"; "web=3"] false 10))).
  { intros arg. simpl. tauto. }
  split; [exact Htoks|]. split; [exact Hpairs|]. split; [exact Hsame|].
  split; [reflexivity|].
  exact (scale_order_irrelevant (context ["web=3"; "db=1"] false 10)
           (context ["db=1"; "web=3"] false 10) (fresh (mock []) (typed EmptyString))
           [("web", 3); ("db", 1)] Htoks Hpairs Hsame eq_refl).
Defined.

(** The delete handler with the force flag and one stopped container. *)
Lemma delete_forced_witness :
  project.ListStoppedContainers (cli.Args (context ["web"] true 0))
    (proj (fresh (mock ["web_1"]) (typed "y")))
  = ((["web_1"], None), tick (mock ["web_1"]))
  /\ ["web_1"] <> ([] : list string)
  /\ cli.Bool (context ["web"] true 0) "force" = true
  /\ ProjectDelete (context ["web"] true 0) (fresh (mock ["web_1"]) (typed "y"))
     = (inl tt,
        {| proj := tick (tick (mock ["web_1"]));
           calls := [] ++ [(OpListStoppedContainers ["web"], None);
                           (OpDelete {| options.RemoveVolume := false |} ["web"], None)];
           stdout := []; stdin := typed "y" |}).
Proof.
  assert (Hne : ["web_1"] <> ([] : list string)) by discriminate.
  split; [reflexivity|]. split; [exact Hne|]. split; [reflexivity|].
  exact (delete_forced (context ["web"] true 0) (fresh (mock ["web_1"]) (typed "y"))
           ["web_1"] (tick (mock ["web_1"])) eq_refl Hne eq_refl).
Defined.

(** The delete handler on the line of two blanks, [Y], a blank and CR LF,
    followed by the text [n]. *)
Lemma delete_confirmed_with_blanks_witness :
  project.ListStoppedContainers (cli.Args (context [] false 0))
    (proj (fresh (mock ["web_1"]) {| pending := [32; 32; 89; 32; 13; 10; 110];
                                      at_end := None |}))
  = ((["web_1"], None), tick (mock ["web_1"]))
  /\ ["web_1"] <> ([] : list string)
  /\ cli.Bool (context [] false 0) "force" = false
  /\ pending (stdin (fresh (mock ["web_1"]) {| pending := [32; 32; 89; 32; 13; 10; 110];
                                               at_end := None |}))
     = [32; 32] ++ [89] ++ [32; 13] ++ 10 :: [110]
  /\ (89 = 121 \/ 89 = 89)
  /\ forallb is_blank [32; 32] = true
  /\ forallb (fun r => isSpace r && negb (r =? 10)) [32; 13] = true
  /\ (calls (snd (ProjectDelete (context [] false 0)
                    (fresh (mock ["web_1"]) {| pending := [32; 32; 89; 32; 13; 10; 110];
                                               at_end := None |})))
      = [] ++ [(OpListStoppedContainers [], None);
               (OpDelete {| options.RemoveVolume := false |} [], None)]
      /\ pending (stdin (snd (ProjectDelete (context [] false 0)
                    (fresh (mock ["web_1"]) {| pending := [32; 32; 89; 32; 13; 10; 110];
                                               at_end := None |}))))
         = [110]).
Proof.
  assert (Hne : ["web_1"] <> ([] : list string)) by discriminate.
  assert (Hr : 89 = 121 \/ 89 = 89) by (right; reflexivity).
  split; [reflexivity|]. split; [exact Hne|]. split; [reflexivity|].
  split; [reflexivity|]. split; [exact Hr|]. split; [reflexivity|]. split; [reflexivity|].
  exact (delete_confirmed_with_blanks (context [] false 0)
           (fresh (mock ["web_1"]) {| pending := [32; 32; 89; 32; 13; 10; 110];
                                      at_end := None |})
           ["web_1"] (tick (mock ["web_1"])) [32; 32] [32; 13] [110] 89
           eq_refl Hne eq_refl eq_refl Hr eq_refl eq_refl).
Defined.

(** The run handler on [web ls]. *)
Lemma run_exit_code_witness :
  cli.Args (context ["web"; "ls"] false 0) = "web" :: "ls" :: []
  /\ ProjectRun (context ["web"; "ls"] false 0) (fresh (mock []) (typed EmptyString))
     = (inr (os_Exit 0),
        {| proj := tick (mock []); calls := [] ++ [(OpRun "web" ["ls"], None)];
           stdout := []; stdin := typed EmptyString |}).
Proof.
  split; [reflexivity|].
  exact (run_exit_code (context ["web"; "ls"] false 0) (fresh (mock []) (typed EmptyString))
           "web" "ls" [] eq_refl).
Defined.

(** ProjectUp on a project that refuses [p.Up]. *)
Lemma up_failure_is_fatal_witness :
  project.Up {| options.Up_Create := {| options.NoRecreate := false;
                                         options.ForceRecreate := false;
                                         options.NoBuild := false |} |}
    (cli.Args up_context) (proj (fresh refusing (typed EmptyString)))
  = (Some refused, refusing)
  /\ ProjectUp up_context [Deliver SIGINT; SelectSignal] (fresh refusing (typed EmptyString))
     = Some (Some (inr (Fatal [AErr refused])),
             {| proj := refusing;
                calls := [] ++ [(OpUp {| options.Up_Create :=
                                           {| options.NoRecreate := false;
                                              options.ForceRecreate := false;
                                              options.NoBuild := false |} |} ["web"],
                                 Some refused)];
                stdout := []; stdin := typed EmptyString |}).
Proof.
  split; [reflexivity|].
  exact (up_failure_is_fatal up_context (fresh refusing (typed EmptyString))
           [Deliver SIGINT; SelectSignal] refused refusing eq_refl).
Defined.

(** The coordinator when the log task fails. *)
Lemma up_log_error_is_fatal_witness :
  exec up_context [LogReturns; SelectErr] (attach up_world_failing_log)
  = Some (after up_context [LogReturns; SelectErr] up_world_failing_log)
  /\ selected (after up_context [LogReturns; SelectErr] up_world_failing_log)
     = Some (CaseErr (Some (errors_New "stream closed")))
  /\ (exited (after up_context [LogReturns; SelectErr] up_world_failing_log)
      = Some (Fatal [AErr (errors_New "stream closed")])
      /\ mainTask (after up_context [LogReturns; SelectErr] up_world_failing_log) = MainWaiting
      /\ completions (after up_context [LogReturns; SelectErr] up_world_failing_log) = O
      /\ stop_calls (world (after up_context [LogReturns; SelectErr] up_world_failing_log))
         = stop_calls up_world_failing_log
      /\ log_calls (world (after up_context [LogReturns; SelectErr] up_world_failing_log))
         = log_calls up_world_failing_log
           ++ [(OpLog true (cli.Args up_context), Some (errors_New "stream closed"))]
      /\ forall a, step up_context a (after up_context [LogReturns; SelectErr]
                                        up_world_failing_log) = None).
Proof.
  split; [reflexivity|]. split; [reflexivity|].
  exact (up_log_error_is_fatal up_context up_world_failing_log [LogReturns; SelectErr]
           (after up_context [LogReturns; SelectErr] up_world_failing_log)
           (errors_New "stream closed") eq_refl eq_refl).
Defined.

(** The coordinator after two signals and a graceful stop. *)
Lemma up_at_most_one_stop_witness :
  exec up_context [Deliver SIGINT; Deliver SIGTERM; SelectSignal; Deliver SIGINT; RunStop;
                   Complete] (attach up_world)
  = Some (after up_context [Deliver SIGINT; Deliver SIGTERM; SelectSignal; Deliver SIGINT;
                            RunStop; Complete] up_world)
  /\ ((exists l,
         stop_calls (world (after up_context [Deliver SIGINT; Deliver SIGTERM; SelectSignal;
                                              Deliver SIGINT; RunStop; Complete] up_world))
         = stop_calls up_world ++ l
         /\ (length l <= 1)%nat
         /\ forall call, In call l -> fst call = the_stop up_context)
      /\ (completions (after up_context [Deliver SIGINT; Deliver SIGTERM; SelectSignal;
                                         Deliver SIGINT; RunStop; Complete] up_world) <= 1)%nat
      /\ (completions (after up_context [Deliver SIGINT; Deliver SIGTERM; SelectSignal;
                                         Deliver SIGINT; RunStop; Complete] up_world) = 1%nat
          <-> mainTask (after up_context [Deliver SIGINT; Deliver SIGTERM; SelectSignal;
                                          Deliver SIGINT; RunStop; Complete] up_world)
              = MainReturned)
      /\ (mainTask (after up_context [Deliver SIGINT; Deliver SIGTERM; SelectSignal;
                                      Deliver SIGINT; RunStop; Complete] up_world)
          = MainReturned ->
          exited (after up_context [Deliver SIGINT; Deliver SIGTERM; SelectSignal;
                                    Deliver SIGINT; RunStop; Complete] up_world) = None)).
Proof.
  split; [reflexivity|].
  exact (up_at_most_one_stop up_context up_world
           [Deliver SIGINT; Deliver SIGTERM; SelectSignal; Deliver SIGINT; RunStop; Complete]
           (after up_context [Deliver SIGINT; Deliver SIGTERM; SelectSignal; Deliver SIGINT;
                              RunStop; Complete] up_world) eq_refl).
Defined.

(** The coordinator when the log task ends and no signal comes. *)
Lemma up_no_stop_without_signal_witness :
  exec up_context [LogReturns; SelectErr; Complete] (attach up_world)
  = Some (after up_context [LogReturns; SelectErr; Complete] up_world)
  /\ existsb is_deliver [LogReturns; SelectErr; Complete] = false
  /\ (stop_calls (world (after up_context [LogReturns; SelectErr; Complete] up_world))
      = stop_calls up_world
      /\ (forall sig, selected (after up_context [LogReturns; SelectErr; Complete] up_world)
                      <> Some (CaseSignal sig))
      /\ stdout (world (after up_context [LogReturns; SelectErr; Complete] up_world))
         = stdout up_world).
Proof.
  split; [reflexivity|]. split; [reflexivity|].
  exact (up_no_stop_without_signal up_context up_world [LogReturns; SelectErr; Complete]
           (after up_context [LogReturns; SelectErr; Complete] up_world) eq_refl eq_refl).
Defined.

(** The coordinator with a signal pending and the select not yet run. *)
Lemma up_waits_for_an_event_witness :
  exec up_context [Deliver SIGINT] (attach up_world)
  = Some (after up_context [Deliver SIGINT] up_world)
  /\ ((existsb is_event [Deliver SIGINT] = false ->
       [Deliver SIGINT] = [] /\ after up_context [Deliver SIGINT] up_world = attach up_world)
      /\ (selected (after up_context [Deliver SIGINT] up_world) = None ->
          terminal (after up_context [Deliver SIGINT] up_world) = false
          /\ completions (after up_context [Deliver SIGINT] up_world) = O
          /\ stop_calls (world (after up_context [Deliver SIGINT] up_world))
             = stop_calls up_world)).
Proof.
  split; [reflexivity|].
  exact (up_waits_for_an_event up_context up_world [Deliver SIGINT]
           (after up_context [Deliver SIGINT] up_world) eq_refl).
Defined.

Lemma up_signal_buffer_witness :
  exec up_context [Deliver SIGINT] (attach up_world)
  = Some (after up_context [Deliver SIGINT] up_world)
  /\ ((length (signalChan (after up_context [Deliver SIGINT] up_world)) <= 1)%nat
      /\ (signalChan (after up_context [Deliver SIGINT] up_world) <> [] ->
          terminal (after up_context [Deliver SIGINT] up_world) = false ->
          step up_context (Deliver SIGTERM) (after up_context [Deliver SIGINT] up_world)
          = Some (after up_context [Deliver SIGINT] up_world))).
Proof.
  split; [reflexivity|].
  exact (up_signal_buffer up_context up_world [Deliver SIGINT]
           (after up_context [Deliver SIGINT] up_world) SIGTERM eq_refl).
Defined.

Lemma up_log_called_once_witness :
  exec up_context [LogReturns; SelectErr] (attach up_world)
  = Some (after up_context [LogReturns; SelectErr] up_world)
  /\ exists l,
       log_calls (world (after up_context [LogReturns; SelectErr] up_world))
       = log_calls up_world ++ l
       /\ (length l <= 1)%nat
       /\ (forall call, In call l -> fst call = OpLog true (cli.Args up_context))
       /\ (forall err, selected (after up_context [LogReturns; SelectErr] up_world)
                       = Some (CaseErr err) ->
                       l = [(OpLog true (cli.Args up_context), err)]).
Proof.
  split; [reflexivity|].
  exact (up_log_called_once up_context up_world [LogReturns; SelectErr]
           (after up_context [LogReturns; SelectErr] up_world) eq_refl).
Defined.


(** The port handler with one argument, and with two. *)
Lemma port_wrong_argument_count_witness :
  length (cli.Args (cli_ext.base (context_ext ["web"] "tcp" false))) <> 2%nat
  /\ ProjectPort (context_ext ["web"] "tcp" false) (fresh (mock []) (typed EmptyString))
     = (inr (Fatalf "Please pass arguments in the form: SERVICE PORT" []),
        fresh (mock []) (typed EmptyString)).
Proof.
  assert (Hlen : length (cli.Args (cli_ext.base (context_ext ["web"] "tcp" false))) <> 2%nat)
    by discriminate.
  split; [exact Hlen|].
  exact (port_wrong_argument_count (context_ext ["web"] "tcp" false)
           (fresh (mock []) (typed EmptyString)) Hlen).
Defined.

Lemma port_two_arguments_witness :
  cli.Args (cli_ext.base (context_ext ["web"; "80"] "tcp" false)) = ["web"; "80"]
  /\ ProjectPort (context_ext ["web"; "80"] "tcp" false) (fresh (mock []) (typed EmptyString))
     = (inl tt,
        {| proj := tick (mock []); calls := [];
           stdout := [] ++ ["0.0.0.0:80" +:+ nl]; stdin := typed EmptyString |}).
Proof.
  split; [reflexivity|].
  exact (port_two_arguments (context_ext ["web"; "80"] "tcp" false)
           (fresh (mock []) (typed EmptyString)) "web" "80" eq_refl).
Defined.
